(** * UrlControl: the map view's state kept in the page URL

    A shallow embedding of [static/url_control.js]: the class [UrlControl]
    (constructor, [remove_from_list], [add_to_list], [change_param],
    [change_params], [_change_history]) and the colour picker
    ([map_detections_clusters_colors], [randomChoice], [randomClusterColor]).

    What the embedding covers.
    - The controller object is its own data properties, a finite map keyed
      by property name, together with its prototype.  [this[param]] reads
      and writes through both, as property access does: the timer handle
      [this.timeout] is a property like the others, an assignment to
      [__proto__] reaches the setter of [Object.prototype], and a method
      call such as [this._change_history()] is a property lookup first,
      which a field of that name shadows and a replaced prototype loses.
    - Arrays are locations in a store, so that [push] (in place) and
      [filter] (a new array) differ as they do in JavaScript.  Their elements
      are strings.
    - The controller, [window.location], [window.history] and the timer
      queue of [setTimeout]/[clearTimeout] are fields of one record, threaded
      through every method by a state-and-exception monad. *)

From Stdlib Require Import ZArith Lia Ascii.
From stdpp Require Import base option list strings gmap fin_maps pretty.

Open Scope string_scope.

(** ** JavaScript values *)

Module Js.

(** The identity of an array object. *)
Definition loc := positive.

(** A Number is carried by the text that [Number::toString] gives for it
    (["0"], ["55.75"], ["NaN"]): the class never computes with the numbers
    it stores, it only writes them into the query string. *)
Record number := Number { number_text : string }.

Inductive jsval :=
| Undefined
| Null
| Boolean (b : bool)
| Num (n : number)
| Str (s : string)
| Array (l : loc)
| TimerId (id : nat).

(** [TimerId] is the handle that [setTimeout] returns.  It is kept apart
    from the Numbers that the page passes in: a caller that forges the
    handle of a pending timer is not modelled. *)

(** The array store: the elements of every array of the page, those that
    callers hand to the controller included. *)
Abbreviation store := (gmap loc (list string)).

(** The elements of the array at [l].  A location outside the store is no
    array of the page; it reads as empty. *)
Definition contents (h : store) (l : loc) : list string := default [] (h !! l).

Inductive exn := TypeError.

Inductive completion (A : Type) :=
| Normal (a : A)
| Throw (e : exn).
Arguments Normal {A} a.
Arguments Throw {A} e.

(** [ToString], as applied by [URLSearchParams.set] to its value argument.
    An array is joined with commas ([Array.prototype.toString]). *)
Definition ToString (h : store) (v : jsval) : string :=
  match v with
  | Undefined => "undefined"
  | Null => "null"
  | Boolean b => if b then "true" else "false"
  | Num n => number_text n
  | Str s => s
  | Array l => String.concat "," (contents h l)
  | TimerId id => pretty id
  end.

(** [a || b] where [a] is what [searchParams.get] returned: [null] and the
    empty string are falsy, every other string is truthy. *)
Definition or_else (a : option string) (b : jsval) : jsval :=
  match a with
  | Some s => if decide (s = "") then b else Str s
  | None => b
  end.

(** [String.prototype.includes]: [needle] occurs in [hay]. *)
Definition string_includes (hay needle : string) : bool :=
  bool_decide (is_Some (String.index 0 needle hay)).

End Js.
Import Js.

(** ** URL query parameters *)

Module URLSearchParams.

(** [get(name)]: the value of the first pair called [name], or [null]. *)
Fixpoint get (name : string) (params : list (string * string)) : option string :=
  match params with
  | [] => None
  | (k, v) :: rest => if decide (k = name) then Some v else get name rest
  end.

(** [getAll(name)]: the values of all the pairs called [name], in order. *)
Definition getAll (name : string) (params : list (string * string)) : list string :=
  (filter (λ kv, kv.1 = name) params).*2.

(** [delete(name)]. *)
Definition delete (name : string) (params : list (string * string))
  : list (string * string) :=
  filter (λ kv, kv.1 ≠ name) params.

(** [set(name, value)]: the first pair called [name] takes [value] and the
    other pairs of that name are removed; with no such pair, one is
    appended. *)
Fixpoint set (name value : string) (params : list (string * string))
  : list (string * string) :=
  match params with
  | [] => [(name, value)]
  | (k, v) :: rest =>
      if decide (k = name) then (name, value) :: delete name rest
      else (k, v) :: set name value rest
  end.

End URLSearchParams.

(** A URL, kept parsed: [new URL(href)] and [url.toString()] are inverse to
    each other on these components, and the class touches the query only. *)
Record URL := mkURL {
  origin_path : string;                  (* scheme, host and path *)
  searchParams : list (string * string);
  hash : string;
}.

Definition searchParams_get (name : string) (u : URL) : option string :=
  URLSearchParams.get name (searchParams u).

Definition searchParams_set (name value : string) (u : URL) : URL :=
  mkURL (origin_path u) (URLSearchParams.set name value (searchParams u)) (hash u).

(** ** The page: the controller, location, session history, timers *)

Module Window.

(** A session history entry as [replaceState(state, title, url)] leaves it. *)
Record entry := mkEntry { entry_title : string; entry_url : URL }.

(** The function handed to [setTimeout] in [_change_history], as a closure:
    its code is fixed, [current_url] is the variable it captured. *)
Inductive handler := HistoryWrite (current_url : URL).

Record timer := mkTimer {
  timer_id : nat;
  timer_due : nat;
  timer_handler : handler;
}.

(** What the controller inherits from.  [new UrlControl] leaves it the
    prototype object of the class, which has the methods, with
    [Object.prototype] behind it; an assignment to [__proto__] can replace
    that by nothing ([null]) or by an array of the page. *)
Inductive prototype :=
| ClassProto
| NullProto
| ArrayProto (l : loc).

#[global] Instance prototype_eq_dec : EqDecision prototype.
Proof. solve_decision. Defined.

(** An object: its own data properties and its prototype. *)
Record object := Object {
  own : gmap string jsval;
  proto : prototype;
}.

(** The own properties are looked up and defined as in a finite map; the
    empty object is the one that [new UrlControl] starts from. *)
#[global] Instance object_lookup : Lookup string jsval object :=
  λ name o, own o !! name.
#[global] Instance object_insert : Insert string jsval object :=
  λ name v o, Object (<[name := v]> (own o)) (proto o).
#[global] Instance object_empty : Empty object := Object ∅ ClassProto.
#[global] Instance object_singleton : SingletonM string jsval object :=
  λ name v, <[name := v]> ∅.

Record world := mkWorld {
  this : object;               (* the page's UrlControl instance *)
  location : URL;              (* window.location.href *)
  entries : list entry;        (* window.history: the session history ... *)
  index : nat;                 (* ... and the position of the current entry *)
  clock : nat;
  timers : list timer;         (* pending timeouts, earliest first *)
  next_timer : nat;            (* the handle the next setTimeout returns *)
  arrays : store;
  writes : list entry;         (* every replaceState call made so far *)
}.

Definition with_this (o : object) (w : world) : world :=
  mkWorld o (location w) (entries w) (index w) (clock w) (timers w)
          (next_timer w) (arrays w) (writes w).

Definition with_timers (q : list timer) (w : world) : world :=
  mkWorld (this w) (location w) (entries w) (index w) (clock w) q
          (next_timer w) (arrays w) (writes w).

Definition with_arrays (h : store) (w : world) : world :=
  mkWorld (this w) (location w) (entries w) (index w) (clock w) (timers w)
          (next_timer w) h (writes w).

(** [window.history.replaceState(state, title, url)]: the current entry is
    overwritten, no entry is added, and the location follows. *)
Definition replaceState (title : string) (url : URL) (w : world) : world :=
  mkWorld (this w) url (<[index w := mkEntry title url]> (entries w)) (index w)
          (clock w) (timers w) (next_timer w) (arrays w)
          (writes w ++ [mkEntry title url])%list.

(** The queue stays ordered by due time; among equal due times the timer
    set first runs first. *)
Fixpoint enqueue (t : timer) (q : list timer) : list timer :=
  match q with
  | [] => [t]
  | t' :: q' =>
      if decide (timer_due t' ≤ timer_due t)%nat then t' :: enqueue t q'
      else t :: q
  end.

(** [setTimeout(handler, delay)]: returns the new timer's handle. *)
Definition setTimeout (f : handler) (delay : nat) (w : world) : jsval * world :=
  let id := next_timer w in
  (TimerId id,
   mkWorld (this w) (location w) (entries w) (index w) (clock w)
           (enqueue (mkTimer id (clock w + delay) f) (timers w))
           (S id) (arrays w) (writes w)).

(** [clearTimeout(handle)]: cancels the timer of that handle when it is
    pending; any other argument (such as [null]) is ignored. *)
Definition clearTimeout (handle : jsval) (w : world) : world :=
  match handle with
  | TimerId id => with_timers (filter (λ t, timer_id t ≠ id) (timers w)) w
  | _ => w
  end.

(** Lines 51-53: the body of the delayed function. *)
Definition run_handler (f : handler) (w : world) : world :=
  match f with
  | HistoryWrite current_url => replaceState "WMS UI" current_url w
  end.

(** [d] time units pass: every timer due by then runs, in queue order. *)
Definition elapse (d : nat) (w : world) : world :=
  let now := (clock w + d)%nat in
  let due := filter (λ t, (timer_due t ≤ now)%nat) (timers w) in
  let later := filter (λ t, ¬ (timer_due t ≤ now)%nat) (timers w) in
  foldl (λ w t, run_handler (timer_handler t) w)
        (mkWorld (this w) (location w) (entries w) (index w) now later
                 (next_timer w) (arrays w) (writes w))
        due.

End Window.
Import Window.

(** ** The monad of the methods: state [world], exception [TypeError]

    The state outlives an exception, as the page outlives a method that
    throws. *)

Definition M (A : Type) : Type := world → completion A * world.

#[global] Instance M_ret : MRet M := λ A a w, (Normal a, w).
#[global] Instance M_bind : MBind M := λ A B f m w,
  match m w with
  | (Normal a, w') => f a w'
  | (Throw e, w') => (Throw e, w')
  end.

Definition throw {A} (e : exn) : M A := λ w, (Throw e, w).
Definition gets {A} (f : world → A) : M A := λ w, (Normal (f w), w).
Definition modify (f : world → world) : M () := λ w, (Normal (), f w).
Definition call {A} (f : world → A * world) : M A :=
  λ w, let '(a, w') := f w in (Normal a, w').

(** ** class UrlControl *)

Module UrlControl.

(** The own property [param] of [o], [undefined] when [o] has none. *)
Definition prop (o : object) (param : string) : jsval :=
  default Undefined (o !! param).

(** The element of an array that a property name designates: [xs[i]] under
    the decimal text of [i], counting from [i]. *)
Fixpoint element_named (i : nat) (xs : list string) (param : string)
  : option string :=
  match xs with
  | [] => None
  | x :: rest =>
      if decide (pretty i = param) then Some x
      else element_named (S i) rest param
  end.

(** [o[param]] as an rvalue: the own property, or else what the prototype
    chain has under that name.  An array as prototype gives its elements,
    its [length], and itself under [__proto__] (the getter of
    [Object.prototype]).  Everything else that is inherited is a function
    or a prototype object, which are no [jsval]; it reads [undefined] here,
    and like [undefined] it has no [includes]. *)
Definition read (o : object) (h : store) (param : string) : jsval :=
  match o !! param with
  | Some v => v
  | None =>
      match proto o with
      | ArrayProto l =>
          if decide (param = "__proto__") then Array l
          else if decide (param = "length")
          then Num (Number (pretty (length (contents h l))))
          else from_option Str Undefined (element_named 0 (contents h l) param)
      | _ => Undefined
      end
  end.

(** [o[param] = v].  Every name but [__proto__] defines or overwrites the
    own property.  [__proto__] does so too when the object has it as an own
    property, or has no prototype left; otherwise the assignment runs the
    setter of [Object.prototype], which replaces the prototype when [v] is
    [null] or an object and ignores every other [v]. *)
Definition assign (param : string) (v : jsval) (o : object) : object :=
  if decide (param = "__proto__") then
    match o !! "__proto__", proto o with
    | None, (ClassProto | ArrayProto _) =>
        match v with
        | Null => Object (own o) NullProto
        | Array l => Object (own o) (ArrayProto l)
        | _ => o
        end
    | _, _ => <[param := v]> o
    end
  else <[param := v]> o.

(** [this[param]] and [this[param] = v]. *)
Definition this_get (param : string) : M jsval :=
  gets (λ w, read (this w) (arrays w) param).

Definition this_set (param : string) (v : jsval) : M () :=
  modify (λ w, with_this (assign param v (this w)) w).

(** [o[name]] is the method [name] of the class: no own property shadows
    it, and the prototype is still the one that has it. *)
Definition has_method (o : object) (name : string) : Prop :=
  o !! name = None ∧ proto o = ClassProto.

#[global] Instance has_method_dec o name : Decision (has_method o name).
Proof. unfold has_method. apply _. Defined.

(** [this.name(...)], where [body] is the method [name] of the class
    applied to its arguments: the call looks [name] up on the object, and
    is a TypeError when that is not the method (no [jsval] is callable). *)
Definition invoke {A} (name : string) (body : M A) : M A :=
  λ w, if decide (has_method (this w) name) then body w
       else (Throw TypeError, w).

Section Constructor.

(** [default_base_layer] is a global of the page, declared outside this file. *)
Variable default_base_layer : jsval.

(** Lines 4-13. *)
Definition constructor (default_lat default_lon default_zoom : jsval) : M () :=
  modify (with_this ∅);;
  current_url ← gets location;
  this_set "lat" (or_else (searchParams_get "lat" current_url) default_lat);;
  this_set "lon" (or_else (searchParams_get "lon" current_url) default_lon);;
  this_set "zoom" (or_else (searchParams_get "zoom" current_url) default_zoom);;
  this_set "base" (or_else (searchParams_get "base" current_url) default_base_layer);;
  this_set "timeout" Null.

End Constructor.

(** Lines 46-48: [for (const p of ['lat', 'lon', 'zoom', 'base'])
    current_url.searchParams.set(p, this[p])].  No prototype has a property
    of one of these names, so that [this[p]] is the own property
    ([read_history_param] below). *)
Definition history_params : list string := ["lat"; "lon"; "zoom"; "base"].

Definition history_url (o : object) (h : store) (current_url : URL) : URL :=
  foldl (λ u p, searchParams_set p (ToString h (prop o p)) u)
        current_url history_params.

(** Lines 43-54.  [current_url] is a copy of the location; the delayed
    function captures that copy. *)
Definition _change_history : M () :=
  current_url ← gets location;
  current_url ← gets (λ w, history_url (this w) (arrays w) current_url);
  handle ← this_get "timeout";
  modify (clearTimeout handle);;
  id ← call (setTimeout (HistoryWrite current_url) 300);
  this_set "timeout" id.

(** [v.includes(value)]: arrays and strings have the method, on anything
    else the call is a TypeError. *)
Definition includes (v : jsval) (value : string) : M bool :=
  match v with
  | Array l => h ← gets arrays; mret (bool_decide (value ∈ contents h l))
  | Str s => mret (string_includes s value)
  | _ => throw TypeError
  end.

(** [v.filter(function (item) { return item !== value })]: a new array;
    only arrays have the method. *)
Definition filter_out (v : jsval) (value : string) : M jsval :=
  match v with
  | Array l =>
      h ← gets arrays;
      let l' := fresh (dom h) in
      modify (with_arrays (<[l' := filter (λ item, item ≠ value) (contents h l)]> h));;
      mret (Array l')
  | _ => throw TypeError
  end.

(** [v.push(value)]: in place; only arrays have the method. *)
Definition push (v : jsval) (value : string) : M () :=
  match v with
  | Array l =>
      h ← gets arrays;
      modify (with_arrays (<[l := (contents h l ++ [value])%list]> h))
  | _ => throw TypeError
  end.

(** Lines 15-22.  The last line of each mutator, [this._change_history()],
    is a method call on the object. *)
Definition remove_from_list (param value : string) : M () :=
  list ← this_get param;
  found ← includes list value;
  (if found : bool
   then list ← this_get param;
        filtered ← filter_out list value;
        this_set param filtered
   else mret ());;
  invoke "_change_history" _change_history.

(** Lines 24-29. *)
Definition add_to_list (param value : string) : M () :=
  list ← this_get param;
  found ← includes list value;
  (if negb found
   then list ← this_get param; push list value
   else mret ());;
  invoke "_change_history" _change_history.

(** Lines 31-34.  The default [true] of [change_history] is passed by the
    caller. *)
Definition change_param (param : string) (value : jsval) (change_history : bool)
  : M () :=
  this_set param value;;
  if change_history then invoke "_change_history" _change_history
  else mret ().

(** Lines 36-41: [for (const name in params) this[name] = params[name]].
    The order of the loop is of no consequence: assignments to different
    names can be made in either order ([assign_comm] below). *)
Definition change_params (params : gmap string jsval) : M () :=
  modify (λ w, with_this (map_fold assign (this w) params) w);;
  invoke "_change_history" _change_history.

End UrlControl.
Import UrlControl.

(** ** The colour picker *)

(** Finite doubles that are not negative, in units of [2^-1074], the
    smallest positive double: every such double is [n * 2^-1074] for an
    integer [n >= 0] with at most 53 significant bits. *)
Module Binary64.

Definition one : Z := 2 ^ 1074.

(** [2^-53], the distance from 1 to the double before it. *)
Definition gap : Z := 2 ^ 1021.

(** The number of low bits of [n] beyond its leading 53. *)
Definition dropped_bits (n : Z) : Z := Z.max 0 (Z.log2 n - 52).

(** [n] is such a double: below the overflow threshold [2^1024], and with
    no bit set beyond its leading 53. *)
Definition representable (n : Z) : bool :=
  (0 <=? n)%Z && (n <? 2 ^ 2098)%Z && (n mod 2 ^ dropped_bits n =? 0)%Z.

(** Rounding to the nearest double, ties to even (below the overflow
    threshold, which no product in this file comes near). *)
Definition round (n : Z) : Z :=
  let s := dropped_bits n in
  let q := (n / 2 ^ s)%Z in
  let r := (n mod 2 ^ s)%Z in
  let q' := if (2 * r <? 2 ^ s)%Z then q
            else if (2 ^ s <? 2 * r)%Z then (q + 1)%Z
            else if Z.even q then q else (q + 1)%Z in
  (q' * 2 ^ s)%Z.

(** [k * x] for an integer [k] that is a double itself: the exact product,
    rounded. *)
Definition mul (k : Z) (x : Z) : Z := round (k * x).

(** [Math.floor(x)], as an integer. *)
Definition floor (x : Z) : Z := (x / one)%Z.

End Binary64.

(** Lines 56-64. *)
Definition map_detections_clusters_colors : list string :=
  ["#46ff00"; "#02750c"; "#e400ff"; "#fa67e6"; "#ff0000"; "#881b1b"; "#ffff00"].

(** Lines 67-69: [arr[Math.floor(arr.length * Math.random())]].  [random]
    is the double that [Math.random()] returned; an index outside the array
    reads [undefined], here [None]. *)
Definition randomChoice (arr : list string) (random : Z) : option string :=
  arr !! Z.to_nat (Binary64.floor (Binary64.mul (Z.of_nat (length arr)) random)).

(** Lines 71-73. *)
Definition randomClusterColor (random : Z) : option string :=
  randomChoice map_detections_clusters_colors random.

(** * Vocabulary of the properties *)

(** ** Calls from the page, and the passing of time *)

Inductive action :=
| RemoveFromList (param value : string)
| AddToList (param value : string)
| ChangeParam (param : string) (value : jsval) (change_history : bool)
| ChangeParams (params : gmap string jsval)
| Elapse (d : nat).

(** The page calls the methods on the controller object,
    [control.add_to_list(param, value)] and so on. *)
Definition method (a : action) : M () :=
  match a with
  | RemoveFromList param value =>
      invoke "remove_from_list" (remove_from_list param value)
  | AddToList param value =>
      invoke "add_to_list" (add_to_list param value)
  | ChangeParam param value change_history =>
      invoke "change_param" (change_param param value change_history)
  | ChangeParams params =>
      invoke "change_params" (change_params params)
  | Elapse d => modify (elapse d)
  end.

(** How the call completes, and the page it leaves. *)
Definition outcome (a : action) (w : world) : completion () := (method a w).1.
Definition perform (a : action) (w : world) : world := (method a w).2.

Definition run (trace : list action) (w : world) : world :=
  foldl (λ w a, perform a w) w trace.

(** The call asks for a history update when it completes. *)
Definition requesting (a : action) : Prop :=
  match a with
  | ChangeParam _ _ change_history => change_history = true
  | Elapse _ => False
  | _ => True
  end.

(** The call does not assign the property [timeout]. *)
Definition keeps_handle (a : action) : Prop :=
  match a with
  | ChangeParam param _ _ => param ≠ "timeout"
  | ChangeParams params => params !! "timeout" = None
  | _ => True
  end.

(** The debounce invariant: no write is pending, or exactly one is and
    [this.timeout] is its handle. *)
Definition debounced (w : world) : Prop :=
  timers w = []
  ∨ ∃ t, timers w = [t] ∧ prop (this w) "timeout" = TimerId (timer_id t).


(** [w'] is [w] up to the controller's fields and the arrays. *)
Definition same_page (w w' : world) : Prop :=
  location w' = location w ∧ entries w' = entries w ∧ index w' = index w
  ∧ clock w' = clock w ∧ timers w' = timers w
  ∧ next_timer w' = next_timer w ∧ writes w' = writes w.

(** A burst: calls that each complete with a request for a history update,
    each followed by a wait shorter than the delay of 300. *)
Fixpoint burst (calls : list (action * nat)) (w : world) : world :=
  match calls with
  | [] => w
  | (a, d) :: rest => burst rest (elapse d (perform a w))
  end.

Fixpoint in_burst (calls : list (action * nat)) (w : world) : Prop :=
  match calls with
  | [] => True
  | (a, d) :: rest =>
      keeps_handle a ∧ requesting a ∧ outcome a w = Normal ()
      ∧ (d < 300)%nat ∧ in_burst rest (elapse d (perform a w))
  end.

(** The history entry that a delayed function leaves when it runs. *)
Definition written_by (f : handler) : entry :=
  match f with HistoryWrite current_url => mkEntry "WMS UI" current_url end.

(** The lists that a call hands to the controller: the arrays among its
    arguments. *)
Definition hands (a : action) (l : loc) : Prop :=
  match a with
  | ChangeParam _ value _ => value = Array l
  | ChangeParams params => ∃ name, params !! name = Some (Array l)
  | _ => False
  end.

(** The arrays that the controller can reach: those that its fields hold,
    and the one it has as prototype. *)
Definition holds (o : object) (l : loc) : Prop :=
  (∃ field, o !! field = Some (Array l)) ∨ proto o = ArrayProto l.

(** The arrays in [known], and those the controller can reach, are free of
    duplicates. *)
Definition clean (known : loc → Prop) (w : world) : Prop :=
  ∀ l, known l ∨ holds (this w) l → NoDup (contents (arrays w) l).


(** How the constructor fills one field: from the query parameter of that
    name when it has a non-empty value, from the default otherwise. *)
Definition reads_param (u : URL) (name : string) (default : jsval)
    (field : option jsval) : Prop :=
  (∀ s, searchParams_get name u = Some s → s ≠ "" → field = Some (Str s))
  ∧ (searchParams_get name u = Some "" → field = Some default)
  ∧ (searchParams_get name u = None → field = Some default).

(** ** Vocabulary of the further properties *)

(** Calls spaced out: each completes with a request for a history update
    and is followed by a wait of 300 or more. *)
Fixpoint spaced (calls : list (action * nat)) (w : world) : Prop :=
  match calls with
  | [] => True
  | (a, d) :: rest =>
      keeps_handle a ∧ requesting a ∧ outcome a w = Normal ()
      ∧ (300 ≤ d)%nat ∧ spaced rest (elapse d (perform a w))
  end.

(** The URL of the fields, one per call, as each call of the run left them. *)
Fixpoint urls_requested (calls : list (action * nat)) (w : world) : list URL :=
  match calls with
  | [] => []
  | (a, d) :: rest =>
      let w1 := perform a w in
      history_url (this w1) (arrays w1) (location w1)
      :: urls_requested rest (elapse d w1)
  end.

(** [u'] is [u] up to the four parameters of the history update: the same
    path and fragment, and the same values, in the same order, under every
    other name. *)
Definition same_frame (u u' : URL) : Prop :=
  origin_path u' = origin_path u
  ∧ hash u' = hash u
  ∧ filter (λ kv, kv.1 ∉ history_params) (searchParams u')
    = filter (λ kv, kv.1 ∉ history_params) (searchParams u).

(** A history entry as the controller writes them, on the page of [u]. *)
Definition written_on (u : URL) (e : entry) : Prop :=
  entry_title e = "WMS UI" ∧ same_frame u (entry_url e).

(** The page [w] seen from the page it once was, with URL [u], history
    [es] at position [i], and writes [ws]: the history has the same length
    and position, and the same entries but for the current one; the
    location, and the URL of every pending write, is [u] up to the four
    parameters; and so is every write made since, under the fixed title. *)
Definition framed (u : URL) (es : list entry) (i : nat) (ws : list entry)
    (w : world) : Prop :=
  length (entries w) = length es
  ∧ index w = i
  ∧ (∀ j, j ≠ i → entries w !! j = es !! j)
  ∧ same_frame u (location w)
  ∧ (∀ t, t ∈ timers w → same_frame u (entry_url (written_by (timer_handler t))))
  ∧ ∃ new, writes w = (ws ++ new)%list ∧ Forall (written_on u) new.

(** The call assigns the property [p] of the controller. *)
Definition assigns (a : action) (p : string) : Prop :=
  match a with
  | RemoveFromList param _ => param = p
  | AddToList _ _ => False
  | ChangeParam param _ _ => param = p
  | ChangeParams params => is_Some (params !! p)
  | Elapse _ => False
  end.

(** None of [lat], [lon], [zoom], [base] holds an array. *)
Definition scalar_view (o : object) : Prop :=
  ∀ p l, p ∈ history_params → prop o p ≠ Array l.

(** What a reload makes of a parameter whose text in the URL is [text]. *)
Definition restored (text : string) (default : jsval) (field : option jsval)
  : Prop :=
  (text ≠ "" → field = Some (Str text))
  ∧ (text = "" → field = Some default).

(** ** Example pages *)

Module Example.

Definition zero : jsval := Num (Number "0").
Definition one : jsval := Num (Number "1").
Definition osm : jsval := Str "osm".

(** A freshly loaded page at the given query string: one history entry, no
    timer pending, no controller yet. *)
Definition page (query : list (string * string)) (h : store) : world :=
  let url := mkURL "https://maps.example/wms" query "" in
  mkWorld ∅ url [mkEntry "" url] 0 0 [] 1 h [].

(** The page of the specification's construction example, after
    [new UrlControl(0, 0, 1)] with [default_base_layer = "osm"]. *)
Definition loaded (h : store) : world :=
  (constructor osm zero zero one (page [("lat", "5"); ("zoom", "3")] h)).2.

(** The array the page keeps in [layers]. *)
Definition layers : loc := 1%positive.

(** The loaded page once [change_param("layers", a, false)] has stored the
    array [a], whose elements are [xs]. *)
Definition with_layers (xs : list string) : world :=
  (change_param "layers" (Array layers) false (loaded {[layers := xs]})).2.

End Example.

(** * Properties *)

(** ** Query parameters *)

Section SearchParams.

Implicit Types (name k value : string) (params : list (string * string)).

Lemma getAll_delete_eq name params :
  URLSearchParams.getAll name (URLSearchParams.delete name params) = [].
Proof.
  unfold URLSearchParams.getAll, URLSearchParams.delete.
  induction params as [|[k v] rest IH]; [done|].
  rewrite filter_cons. cbn. case_decide as Hk; [|exact IH].
  rewrite filter_cons. cbn. rewrite decide_False by tauto. exact IH.
Qed.

Lemma getAll_delete_ne name k params :
  k ≠ name →
  URLSearchParams.getAll k (URLSearchParams.delete name params)
  = URLSearchParams.getAll k params.
Proof.
  intros Hne. unfold URLSearchParams.getAll, URLSearchParams.delete.
  induction params as [|[k' v] rest IH]; [done|].
  rewrite !filter_cons. cbn.
  destruct (decide (k' ≠ name)) as [Hn|Hn].
  - rewrite filter_cons. cbn. case_decide; cbn; by rewrite IH.
  - rewrite decide_False by (intros ->; tauto). exact IH.
Qed.

Lemma getAll_set_eq name value params :
  URLSearchParams.getAll name (URLSearchParams.set name value params) = [value].
Proof.
  induction params as [|[k v] rest IH]; cbn [URLSearchParams.set].
  - unfold URLSearchParams.getAll. rewrite filter_cons. cbn.
    by rewrite decide_True.
  - case_decide as Hk.
    + unfold URLSearchParams.getAll. rewrite filter_cons. cbn.
      rewrite decide_True by done. cbn. f_equal.
      apply (getAll_delete_eq name rest).
    + unfold URLSearchParams.getAll in *. rewrite filter_cons. cbn.
      rewrite decide_False by done. exact IH.
Qed.

Lemma getAll_set_ne name k value params :
  k ≠ name →
  URLSearchParams.getAll k (URLSearchParams.set name value params)
  = URLSearchParams.getAll k params.
Proof.
  intros Hne. induction params as [|[k' v] rest IH]; cbn [URLSearchParams.set].
  - unfold URLSearchParams.getAll. rewrite filter_cons. cbn.
    by rewrite decide_False by (intros ->; tauto).
  - case_decide as Hk.
    + subst k'. unfold URLSearchParams.getAll. rewrite !filter_cons. cbn.
      rewrite !decide_False by (intros ->; tauto).
      apply (getAll_delete_ne name k rest Hne).
    + unfold URLSearchParams.getAll in *. rewrite !filter_cons. cbn.
      case_decide; cbn; by rewrite IH.
Qed.

(** [get] is the head of [getAll]. *)
Lemma get_head_getAll name params :
  URLSearchParams.get name params = head (URLSearchParams.getAll name params).
Proof.
  unfold URLSearchParams.getAll.
  induction params as [|[k v] rest IH]; [done|].
  cbn [URLSearchParams.get]. rewrite filter_cons. cbn.
  by case_decide.
Qed.

End SearchParams.

(** ** Property access *)

Section Objects.

Implicit Types (o : object) (param name k : string) (v : jsval) (h : store).

Local Abbreviation digits :=
  (["0"; "1"; "2"; "3"; "4"; "5"; "6"; "7"; "8"; "9"]%char : list ascii).


Lemma object_lookup_insert_eq o k v : <[k := v]> o !! k = Some v.
Proof. apply (lookup_insert_eq (own o)). Qed.

Lemma object_lookup_insert_ne o k k' v :
  k ≠ k' → <[k := v]> o !! k' = o !! k'.
Proof. apply (lookup_insert_ne (own o)). Qed.


Lemma prop_insert_eq o param v : prop (<[param := v]> o) param = v.
Proof. unfold prop. by rewrite object_lookup_insert_eq. Qed.

Lemma prop_insert_ne o param k v :
  param ≠ k → prop (<[param := v]> o) k = prop o k.
Proof. intros Hne. unfold prop. by rewrite object_lookup_insert_ne. Qed.

Lemma prop_Array o param (l : loc) :
  prop o param = Array l → o !! param = Some (Array l).
Proof. unfold prop. destruct (o !! param); cbn; [congruence|discriminate]. Qed.


Lemma pretty_N_char_digit (x : N) : pretty_N_char x ∈ digits.
Proof.
  unfold pretty_N_char. repeat case_match;
    repeat first [apply list_elem_of_here | apply list_elem_of_further].
Qed.

Lemma pretty_N_go_head (x : N) (s : string) :
  (0 < x)%N → ∃ c s', pretty_N_go x s = String c s' ∧ c ∈ digits.
Proof.
  revert s. induction (N.lt_wf_0 x) as [x _ IH]; intros s Hx.
  rewrite pretty_N_go_step by done.
  destruct (decide (x `div` 10 = 0)%N) as [->|Hne].
  - rewrite pretty_N_go_0. eexists _, _. split; [done|apply pretty_N_char_digit].
  - apply IH; [by apply N.div_lt | by apply N.neq_0_lt_0].
Qed.

(** The decimal text of a number starts with a digit. *)
Lemma pretty_nat_head (n : nat) :
  ∃ c s, pretty n = String c s ∧ c ∈ digits.
Proof.
  unfold pretty, pretty_nat, pretty, pretty_N. case_decide.
  - exists "0"%char, "". split; [done|apply list_elem_of_here].
  - apply pretty_N_go_head. lia.
Qed.

Lemma element_named_index (i : nat) (xs : list string) param (s : string) :
  element_named i xs param = Some s → ∃ n : nat, pretty n = param.
Proof.
  revert i. induction xs as [|x xs IH]; intros i; cbn; [done|].
  case_decide; eauto.
Qed.

(** A name that does not start with a digit designates no element. *)
Lemma not_an_index (c : ascii) (rest : string) (i : nat) (xs : list string) :
  c ∉ digits → element_named i xs (String c rest) = None.
Proof.
  intros Hc. destruct (element_named i xs (String c rest)) as [s|] eqn:Hs; [|done].
  apply element_named_index in Hs as [n Hn].
  destruct (pretty_nat_head n) as (c' & s' & Heq & Hdigit).
  rewrite Heq in Hn. injection Hn as -> ->. done.
Qed.

(** [lat], [lon], [zoom], [base] and [timeout] are read from the object
    itself: no prototype has a property of these names. *)
Lemma read_field o h (p : string) :
  p ∈ "timeout" :: history_params → read o h p = prop o p.
Proof.
  intros Hp. unfold read, prop. destruct (o !! p) as [v|]; [done|].
  destruct (proto o) as [| |l]; [done..|]. cbn.
  unfold history_params in Hp.
  repeat (apply elem_of_cons in Hp as [->|Hp]); [..|by apply elem_of_nil in Hp];
    (rewrite !decide_False by done; rewrite not_an_index; [done|];
     let Hin := fresh in
     intros Hin;
     repeat (apply elem_of_cons in Hin as [Hin|Hin]; [discriminate Hin|]);
     by apply elem_of_nil in Hin).
Qed.

Lemma read_history_param o h (p : string) :
  p ∈ history_params → read o h p = prop o p.
Proof. intros Hp. apply read_field. by right. Qed.

(** What is read is an array: the field holds it, or it is the prototype,
    read under [__proto__]. *)
Lemma read_Array o h param (l : loc) :
  read o h param = Array l →
  o !! param = Some (Array l)
  ∨ (param = "__proto__" ∧ o !! param = None ∧ proto o = ArrayProto l).
Proof.
  unfold read. destruct (o !! param) as [v|]; [intros ->; by left|].
  destruct (proto o) as [| |l']; try done.
  case_decide as Hp; [intros [= ->]; by right|].
  case_decide; [done|]. by destruct (element_named _ _ _).
Qed.

Lemma read_holds o h param (l : loc) : read o h param = Array l → holds o l.
Proof.
  intros [Hown|(_ & _ & Hproto)]%read_Array; [left; by exists param|by right].
Qed.

Lemma assign_ne param v o :
  param ≠ "__proto__" → assign param v o = <[param := v]> o.
Proof. intros Hne. unfold assign. by rewrite decide_False. Qed.


Lemma assign_lookup_ne param v o k :
  k ≠ param → assign param v o !! k = o !! k.
Proof.
  intros Hne. unfold assign.
  case_decide as Hp; [subst param|by apply object_lookup_insert_ne].
  destruct (o !! "__proto__"), (proto o), v;
    first [done | by apply object_lookup_insert_ne].
Qed.

Lemma prop_assign_ne param v o k :
  k ≠ param → prop (assign param v o) k = prop o k.
Proof. intros Hne. unfold prop. by rewrite assign_lookup_ne. Qed.

Lemma insert_holds k v o (l : loc) :
  holds (<[k := v]> o) l → v = Array l ∨ holds o l.
Proof.
  intros [[field Hfield]|Hproto]; [|right; by right].
  destruct (decide (k = field)) as [->|Hne].
  - rewrite object_lookup_insert_eq in Hfield. left. congruence.
  - rewrite object_lookup_insert_ne in Hfield by done.
    right; left. by exists field.
Qed.

(** An assignment gives the controller no array but the one assigned. *)
Lemma assign_holds param v o (l : loc) :
  holds (assign param v o) l → v = Array l ∨ holds o l.
Proof.
  unfold assign. case_decide as Hp; [|apply insert_holds].
  destruct (o !! "__proto__"); [apply insert_holds|].
  destruct (proto o) eqn:Hproto; [|apply insert_holds|];
    destruct v; try (intros Hl; by right);
    (intros [[field Hfield]|Hl];
     [right; left; exists field; exact Hfield
     |cbn in Hl; first [discriminate Hl | left; congruence]]).
Qed.






(** The [for ... in] loop of [change_params], name by name: a name of the
    mapping takes the mapping's value, [__proto__] apart; every other
    property stays. *)
Lemma assign_all_lookup (params : gmap string jsval) o k :
  (params !! k = None → map_fold assign o params !! k = o !! k)
  ∧ (∀ v, params !! k = Some v → k ≠ "__proto__" →
       map_fold assign o params !! k = Some v).
Proof.
  revert k.
  apply (map_fold_weak_ind
    (λ r m, ∀ k, (m !! k = None → r !! k = o !! k)
                 ∧ (∀ v, m !! k = Some v → k ≠ "__proto__" → r !! k = Some v))).
  - intros k. split; [done|]. intros v. by rewrite lookup_empty.
  - intros i x m r Hfresh IH k. destruct (decide (i = k)) as [->|Hne].
    + rewrite lookup_insert_eq. split; [done|]. intros v [= ->] Hk.
      rewrite assign_ne by done. apply object_lookup_insert_eq.
    + rewrite lookup_insert_ne by done. rewrite assign_lookup_ne by done.
      apply IH.
Qed.

Lemma assign_all_holds (params : gmap string jsval) o (l : loc) :
  holds (map_fold assign o params) l →
  (∃ name, params !! name = Some (Array l)) ∨ holds o l.
Proof.
  apply (map_fold_weak_ind
    (λ r m, holds r l → (∃ name, m !! name = Some (Array l)) ∨ holds o l));
    [by right|].
  intros i x m r Hfresh IH [->|Hr]%assign_holds.
  - left. exists i. apply lookup_insert_eq.
  - destruct (IH Hr) as [[name Hname]|Ho]; [left|by right].
    exists name. rewrite lookup_insert_ne; [done|]. by intros ->; congruence.
Qed.


End Objects.

(** ** What each method does to the page *)

Section Methods.

Implicit Types (w : world) (param : string) (o : object).

Lemma clearTimeout_frame handle w :
  clearTimeout handle w
  = with_timers (timers (clearTimeout handle w)) w.
Proof. by destruct handle, w. Qed.

(** The history update never throws; this is the page it leaves. *)
Lemma change_history_eq w :
  _change_history w
  = (Normal (),
     mkWorld (<["timeout" := TimerId (next_timer w)]> (this w))
             (location w) (entries w) (index w) (clock w)
             (enqueue (mkTimer (next_timer w) (clock w + 300)
                         (HistoryWrite (history_url (this w) (arrays w) (location w))))
                      (timers (clearTimeout (prop (this w) "timeout") w)))
             (S (next_timer w)) (arrays w) (writes w)).
Proof.
  unfold _change_history, this_get, this_set, gets, modify, call.
  unfold mbind, M_bind. cbn beta iota.
  rewrite (read_field (this w) (arrays w) "timeout") by (by left).
  by destruct (prop (this w) "timeout").
Qed.

Lemma constructor_eq base default_lat default_lon default_zoom w :
  constructor base default_lat default_lon default_zoom w
  = (Normal (),
     with_this
       (<["timeout" := Null]>
        (<["base" := or_else (searchParams_get "base" (location w)) base]>
         (<["zoom" := or_else (searchParams_get "zoom" (location w)) default_zoom]>
          (<["lon" := or_else (searchParams_get "lon" (location w)) default_lon]>
           (<["lat" := or_else (searchParams_get "lat" (location w)) default_lat]>
            ∅))))) w).
Proof. reflexivity. Qed.

Lemma or_else_present s default :
  s ≠ "" → or_else (Some s) default = Str s.
Proof. intros Hs. unfold or_else. by rewrite decide_False. Qed.

End Methods.

(** ** Construction *)

Lemma reads_param_or_else u name default :
  reads_param u name default (Some (or_else (searchParams_get name u) default)).
Proof.
  repeat split.
  - intros s -> Hs. by rewrite or_else_present.
  - by intros ->.
  - by intros ->.
Qed.

(** C1 (amended).  [new UrlControl(default_lat, default_lon, default_zoom)]
    never throws, changes nothing of the page but the object it builds, and
    sets each of [lat], [lon], [zoom], [base] to the query parameter of the
    same name when that parameter is present with a non-empty value, and
    otherwise (absent, or present but empty) to the supplied default, for
    [base] to [default_base_layer]; [timeout] starts as [null]. *)
Theorem constructor_reads_url
    (default_base_layer default_lat default_lon default_zoom : jsval)
    (w : world) :
  let r := constructor default_base_layer default_lat default_lon default_zoom w in
  r.1 = Normal ()
  ∧ r.2 = with_this (this r.2) w
  ∧ reads_param (location w) "lat" default_lat (this r.2 !! "lat")
  ∧ reads_param (location w) "lon" default_lon (this r.2 !! "lon")
  ∧ reads_param (location w) "zoom" default_zoom (this r.2 !! "zoom")
  ∧ reads_param (location w) "base" default_base_layer (this r.2 !! "base")
  ∧ this r.2 !! "timeout" = Some Null.
Proof.
  intros r. subst r. rewrite constructor_eq. cbn [fst snd with_this this].
  split; [done|]. split; [done|].
  repeat split; try apply reads_param_or_else; done.
Qed.

(** The specification's example: the page is at [?lat=5&zoom=3], the
    defaults are 0, 0, 1 and ["osm"]. *)
Lemma constructor_reads_url_example :
  let w := Example.loaded ∅ in
  this w !! "lat" = Some (Str "5")
  ∧ this w !! "lon" = Some Example.zero
  ∧ this w !! "zoom" = Some (Str "3")
  ∧ this w !! "base" = Some (Str "osm")
  ∧ this w !! "timeout" = Some Null.
Proof.
  destruct (constructor_reads_url Example.osm Example.zero Example.zero
              Example.one (Example.page [("lat", "5"); ("zoom", "3")] ∅))
    as (_ & _ & Hlat & Hlon & Hzoom & Hbase & Htimeout).
  split; [by apply (proj1 Hlat "5")|].
  split; [by apply (proj2 (proj2 Hlon))|].
  split; [by apply (proj1 Hzoom "3")|].
  split; [by apply (proj2 (proj2 Hbase))|].
  exact Htimeout.
Defined.

(** C1 as stated fails: at [?lat=] the parameter [lat] is present (with the
    empty string as its value), and [this.lat] is the default, not that
    value. *)
Lemma constructor_empty_param_counterexample :
  let w := Example.page [("lat", "")] ∅ in
  let r := constructor Example.osm Example.zero Example.zero Example.one w in
  searchParams_get "lat" (location w) = Some ""
  ∧ this r.2 !! "lat" = Some Example.zero
  ∧ this r.2 !! "lat" ≠ Some (Str "").
Proof. by repeat split. Qed.

(** ** The URL of a history update *)

Section HistoryUrl.

Implicit Types (o : object) (h : store) (u : URL) (p k : string).

Lemma history_url_eq o h u :
  history_url o h u
  = searchParams_set "base" (ToString h (prop o "base"))
      (searchParams_set "zoom" (ToString h (prop o "zoom"))
         (searchParams_set "lon" (ToString h (prop o "lon"))
            (searchParams_set "lat" (ToString h (prop o "lat")) u))).
Proof. reflexivity. Qed.

Lemma history_url_own o h u p :
  p ∈ history_params →
  URLSearchParams.getAll p (searchParams (history_url o h u))
  = [ToString h (prop o p)].
Proof.
  intros Hp. rewrite history_url_eq. cbn [searchParams searchParams_set].
  unfold history_params in Hp.
  repeat (apply elem_of_cons in Hp as [->|Hp]);
    [..|by apply elem_of_nil in Hp];
    repeat first [ apply getAll_set_eq | rewrite getAll_set_ne by done ].
Qed.


(** The update reads [lat], [lon], [zoom] and [base] and nothing else of the
    object. *)
Lemma history_url_reads o o' h u :
  (∀ p, p ∈ history_params → o' !! p = o !! p) →
  history_url o' h u = history_url o h u.
Proof.
  intros Hsame. rewrite !history_url_eq. unfold prop.
  rewrite !Hsame by (unfold history_params; set_solver). done.
Qed.

Lemma history_url_timeout o h u v :
  history_url (<["timeout" := v]> o) h u = history_url o h u.
Proof.
  apply history_url_reads. intros p Hp. apply object_lookup_insert_ne.
  intros <-. unfold history_params in Hp.
  repeat (apply elem_of_cons in Hp as [Hp|Hp]; [discriminate Hp|]).
  by apply elem_of_nil in Hp.
Qed.

End HistoryUrl.

Lemma elem_of_enqueue t q : t ∈ enqueue t q.
Proof.
  induction q as [|t' q IH]; cbn; [set_solver|].
  case_decide; set_solver.
Qed.



(** ** The mutators, case by case *)

Section Mutators.

Implicit Types (w : world) (param value name : string) (l : loc).

(** [this._change_history()]. *)
Local Abbreviation update := (invoke "_change_history" _change_history).


Lemma invoke_cases {A} name (body : M A) w :
  invoke name body w = body w ∨ invoke name body w = (Throw TypeError, w).
Proof. unfold invoke. case_decide; auto. Qed.

Lemma remove_from_list_array param value l w :
  read (this w) (arrays w) param = Array l →
  remove_from_list param value w
  = update
      (if decide (value ∈ contents (arrays w) l)
       then with_this (assign param (Array (fresh (dom (arrays w)))) (this w))
              (with_arrays
                 (<[fresh (dom (arrays w))
                    := filter (λ item, item ≠ value) (contents (arrays w) l)]>
                  (arrays w)) w)
       else w).
Proof.
  intros Hl. unfold remove_from_list, this_get, gets, mbind, M_bind.
  cbn beta iota. rewrite Hl. cbn [includes].
  unfold gets, mbind, M_bind, mret, M_ret. cbn beta iota.
  destruct (decide (value ∈ contents (arrays w) l)) as [Hin|Hin].
  - rewrite bool_decide_eq_true_2 by done. cbn beta iota. rewrite Hl. done.
  - rewrite bool_decide_eq_false_2 by done. done.
Qed.

Lemma remove_from_list_string param value (s : string) w :
  read (this w) (arrays w) param = Str s →
  remove_from_list param value w
  = if string_includes s value then (Throw TypeError, w) else update w.
Proof.
  intros Hs. unfold remove_from_list, this_get, gets, mbind, M_bind.
  cbn beta iota. rewrite Hs. cbn [includes].
  unfold mret, M_ret. cbn beta iota.
  destruct (string_includes s value); [cbn beta iota; by rewrite Hs | done].
Qed.

Lemma remove_from_list_other param value w :
  (∀ l, read (this w) (arrays w) param ≠ Array l) →
  (∀ s, read (this w) (arrays w) param ≠ Str s) →
  remove_from_list param value w = (Throw TypeError, w).
Proof.
  intros Hl Hs. unfold remove_from_list, this_get, gets, mbind, M_bind.
  cbn beta iota. destruct (read (this w) (arrays w) param); try done.
  - by destruct (Hs s).
  - by destruct (Hl l).
Qed.

Lemma add_to_list_array param value l w :
  read (this w) (arrays w) param = Array l →
  add_to_list param value w
  = update
      (if decide (value ∈ contents (arrays w) l) then w
       else with_arrays
              (<[l := (contents (arrays w) l ++ [value])%list]> (arrays w)) w).
Proof.
  intros Hl. unfold add_to_list, this_get, gets, mbind, M_bind.
  cbn beta iota. rewrite Hl. cbn [includes].
  unfold gets, mbind, M_bind, mret, M_ret. cbn beta iota.
  destruct (decide (value ∈ contents (arrays w) l)) as [Hin|Hin].
  - rewrite bool_decide_eq_true_2 by done. done.
  - rewrite bool_decide_eq_false_2 by done. cbn [negb]. cbn beta iota.
    rewrite Hl. done.
Qed.

Lemma add_to_list_string param value (s : string) w :
  read (this w) (arrays w) param = Str s →
  add_to_list param value w
  = if string_includes s value then update w else (Throw TypeError, w).
Proof.
  intros Hs. unfold add_to_list, this_get, gets, mbind, M_bind.
  cbn beta iota. rewrite Hs. cbn [includes].
  unfold mret, M_ret. cbn beta iota.
  destruct (string_includes s value); [done|].
  cbn [negb]. cbn beta iota. by rewrite Hs.
Qed.

Lemma add_to_list_other param value w :
  (∀ l, read (this w) (arrays w) param ≠ Array l) →
  (∀ s, read (this w) (arrays w) param ≠ Str s) →
  add_to_list param value w = (Throw TypeError, w).
Proof.
  intros Hl Hs. unfold add_to_list, this_get, gets, mbind, M_bind.
  cbn beta iota. destruct (read (this w) (arrays w) param); try done.
  - by destruct (Hs s).
  - by destruct (Hl l).
Qed.

Lemma change_param_eq param (v : jsval) (change_history : bool) w :
  change_param param v change_history w
  = if change_history
    then update (with_this (assign param v (this w)) w)
    else (Normal (), with_this (assign param v (this w)) w).
Proof. by destruct change_history. Qed.

Lemma change_params_eq (params : gmap string jsval) w :
  change_params params w
  = update (with_this (map_fold assign (this w) params) w).
Proof. reflexivity. Qed.





End Mutators.

(** ** Requests for a history update *)

Section Requests.

Implicit Types (w : world) (param value : string) (l : loc).


Lemma change_history_this w :
  this (_change_history w).2 = <["timeout" := TimerId (next_timer w)]> (this w).
Proof. by rewrite change_history_eq. Qed.

Lemma change_history_arrays w : arrays (_change_history w).2 = arrays w.
Proof. by rewrite change_history_eq. Qed.


Lemma same_page_refl w : same_page w w.
Proof. by repeat split. Qed.

Lemma same_page_with_this (o : object) w : same_page w (with_this o w).
Proof. by repeat split. Qed.

Lemma same_page_with_arrays (h : store) w : same_page w (with_arrays h w).
Proof. by repeat split. Qed.

Lemma same_page_trans w1 w2 w3 :
  same_page w1 w2 → same_page w2 w3 → same_page w1 w3.
Proof.
  unfold same_page. intros (?&?&?&?&?&?&?) (?&?&?&?&?&?&?).
  repeat split; congruence.
Qed.

End Requests.

(** ** The list mutators *)

Lemma NoDup_push (xs : list string) (value : string) :
  value ∉ xs → NoDup xs → NoDup (xs ++ [value])%list.
Proof.
  intros Hout Hxs. apply NoDup_app.
  split; [done|]. split; [|apply NoDup_singleton].
  intros x Hx Hx'. apply list_elem_of_singleton in Hx'. by subst x.
Qed.







(** ** The scalar mutators *)




(** ** The debounce *)

Section Debounce.

Implicit Types (w : world) (t : timer) (a : action) (d : nat).

Lemma run_handlers_frame (due : list timer) w :
  let w' := foldl (λ w t, run_handler (timer_handler t) w) w due in
  this w' = this w ∧ clock w' = clock w ∧ timers w' = timers w
  ∧ next_timer w' = next_timer w ∧ arrays w' = arrays w
  ∧ length (entries w') = length (entries w) ∧ index w' = index w.
Proof.
  revert w. induction due as [|t due IH]; intros w; [done|].
  cbn [foldl]. destruct (IH (run_handler (timer_handler t) w))
    as (-> & -> & -> & -> & -> & -> & ->).
  destruct (timer_handler t). cbn. by rewrite length_insert.
Qed.

Lemma elapse_this d w : this (elapse d w) = this w.
Proof. unfold elapse. by rewrite (proj1 (run_handlers_frame _ _)). Qed.

Lemma elapse_arrays d w : arrays (elapse d w) = arrays w.
Proof.
  unfold elapse.
  by destruct (run_handlers_frame
    (filter (λ t, (timer_due t ≤ clock w + d)%nat) (timers w))
    (mkWorld (this w) (location w) (entries w) (index w) (clock w + d)
       (filter (λ t, ¬ (timer_due t ≤ clock w + d)%nat) (timers w))
       (next_timer w) (arrays w) (writes w)))
    as (_ & _ & _ & _ & -> & _).
Qed.

Lemma elapse_timers d w :
  timers (elapse d w)
  = filter (λ t, ¬ (timer_due t ≤ clock w + d)%nat) (timers w).
Proof.
  unfold elapse.
  by destruct (run_handlers_frame
    (filter (λ t, (timer_due t ≤ clock w + d)%nat) (timers w))
    (mkWorld (this w) (location w) (entries w) (index w) (clock w + d)
       (filter (λ t, ¬ (timer_due t ≤ clock w + d)%nat) (timers w))
       (next_timer w) (arrays w) (writes w)))
    as (_ & _ & -> & _).
Qed.

(** Before the pending write is due, time passes and nothing else happens. *)
Lemma elapse_pending d w t :
  timers w = [t] → (clock w + d < timer_due t)%nat →
  elapse d w
  = mkWorld (this w) (location w) (entries w) (index w) (clock w + d) [t]
            (next_timer w) (arrays w) (writes w).
Proof.
  intros Ht Hd. unfold elapse. rewrite Ht, !filter_cons, !filter_nil.
  repeat case_decide; first [lia | done].
Qed.

(** Once it is due, the pending write runs. *)
Lemma elapse_fires d w t :
  timers w = [t] → (timer_due t ≤ clock w + d)%nat →
  elapse d w
  = run_handler (timer_handler t)
      (mkWorld (this w) (location w) (entries w) (index w) (clock w + d) []
               (next_timer w) (arrays w) (writes w)).
Proof.
  intros Ht Hd. unfold elapse. rewrite Ht, !filter_cons, !filter_nil.
  repeat case_decide; first [lia | done].
Qed.

Lemma clearTimeout_debounced w :
  debounced w → timers (clearTimeout (prop (this w) "timeout") w) = [].
Proof.
  intros [Hnone|(t & Ht & Hhandle)].
  - destruct (prop (this w) "timeout"); cbn; try done.
    by rewrite Hnone.
  - rewrite Hhandle. cbn. rewrite Ht, filter_cons, filter_nil.
    by rewrite decide_False by tauto.
Qed.

(** A request made in a debounced page cancels what was pending: its own
    timer is the only one left. *)
Lemma request_timers w :
  debounced w →
  timers (_change_history w).2
  = [mkTimer (next_timer w) (clock w + 300)
       (HistoryWrite (history_url (this w) (arrays w) (location w)))].
Proof.
  intros Hw. rewrite change_history_eq. cbn [snd timers].
  by rewrite clearTimeout_debounced.
Qed.

Lemma request_debounced w : debounced w → debounced (_change_history w).2.
Proof.
  intros Hw. right. eexists. split; [by apply request_timers|].
  rewrite change_history_this. apply prop_insert_eq.
Qed.

Lemma elapse_debounced d w : debounced w → debounced (elapse d w).
Proof.
  intros [Hnone|(t & Ht & Hhandle)].
  - left. by rewrite elapse_timers, Hnone.
  - rewrite <- (elapse_this d w) in Hhandle. unfold debounced.
    rewrite elapse_timers, Ht, filter_cons, filter_nil.
    case_decide; [right; by exists t | by left].
Qed.

Lemma same_page_debounced w w1 :
  same_page w w1 → prop (this w1) "timeout" = prop (this w) "timeout" →
  debounced w → debounced w1.
Proof.
  intros (_ & _ & _ & _ & Htimers & _) Hhandle. unfold debounced.
  by rewrite Htimers, Hhandle.
Qed.

(** A debounced page with an array in [timeout] has nothing pending. *)
Lemma debounced_no_handle w (v : jsval) :
  debounced w → prop (this w) "timeout" = v → (∀ id, v ≠ TimerId id) →
  timers w = [].
Proof.
  intros [Hnone|(t & _ & Hhandle)] Hv Hid; [done|].
  rewrite Hhandle in Hv. by destruct (Hid (timer_id t)).
Qed.

(** [this._change_history()], from where the mutators call it: the history
    update, or a TypeError that leaves the page as the mutator made it. *)
Lemma update_cases w1 :
  invoke "_change_history" _change_history w1 = (Throw TypeError, w1)
  ∧ ¬ has_method (this w1) "_change_history"
  ∨ invoke "_change_history" _change_history w1 = _change_history w1
    ∧ has_method (this w1) "_change_history".
Proof. unfold invoke. case_decide; auto. Qed.

(** What a mutator has done when it reaches [this._change_history()], or
    throws before: to fields and arrays only, and to no field but those it
    assigns. *)
Lemma remove_from_list_cases (param value : string) w :
  ∃ w1, same_page w w1
    ∧ (debounced w → debounced w1)
    ∧ (∀ p, p ≠ param → prop (this w1) p = prop (this w) p)
    ∧ (remove_from_list param value w = (Throw TypeError, w1)
       ∨ remove_from_list param value w
         = invoke "_change_history" _change_history w1).
Proof.
  destruct (read (this w) (arrays w) param) as [| |b|n|s|l|id] eqn:Hread.
  1-4,7: exists w; split; [apply same_page_refl|]; split; [done|];
    split; [done|]; left; apply remove_from_list_other; by rewrite Hread.
  - exists w. split; [apply same_page_refl|]. split; [done|]. split; [done|].
    rewrite (remove_from_list_string param value s w Hread).
    destruct (string_includes s value); auto.
  - rewrite (remove_from_list_array param value l w Hread).
    eexists. split; [|split; [|split; [|by right]]].
    + case_decide; [|apply same_page_refl].
      eapply same_page_trans;
        [apply same_page_with_arrays|apply same_page_with_this].
    + intros Hw. case_decide; [|done].
      destruct (decide (param = "timeout")) as [->|Hne].
      * left. cbn [timers with_this with_arrays].
        rewrite read_field in Hread by (by left).
        apply (debounced_no_handle w (Array l) Hw Hread). done.
      * eapply same_page_debounced; [| |exact Hw].
        -- eapply same_page_trans;
             [apply same_page_with_arrays|apply same_page_with_this].
        -- cbn [this with_this]. by apply prop_assign_ne.
    + intros p Hp. case_decide; [|done].
      cbn [this with_this with_arrays]. by apply prop_assign_ne.
Qed.

Lemma add_to_list_cases (param value : string) w :
  ∃ w1, same_page w w1
    ∧ this w1 = this w
    ∧ (add_to_list param value w = (Throw TypeError, w1)
       ∨ add_to_list param value w
         = invoke "_change_history" _change_history w1).
Proof.
  destruct (read (this w) (arrays w) param) as [| |b|n|s|l|id] eqn:Hread.
  1-4,7: exists w; split; [apply same_page_refl|]; split; [done|];
    left; apply add_to_list_other; by rewrite Hread.
  - exists w. split; [apply same_page_refl|]. split; [done|].
    rewrite (add_to_list_string param value s w Hread).
    destruct (string_includes s value); auto.
  - rewrite (add_to_list_array param value l w Hread).
    eexists. split; [|split; [|by right]].
    + case_decide; [apply same_page_refl|apply same_page_with_arrays].
    + by case_decide.
Qed.

Lemma debounced_this w w1 :
  same_page w w1 → this w1 = this w → debounced w → debounced w1.
Proof.
  intros Hsame Hthis. apply same_page_debounced; [done|]. by rewrite Hthis.
Qed.

(** Every call, seen from the debounce: time passes; or the call changes
    fields and arrays only, no field but those it assigns, and then throws,
    or ends in the history update, or is a silent [change_param]. *)
Lemma method_cases a w :
  (∃ d, a = Elapse d)
  ∨ ∃ w1, same_page w w1
      ∧ (keeps_handle a → debounced w → debounced w1)
      ∧ (∀ p, ¬ assigns a p → prop (this w1) p = prop (this w) p)
      ∧ (method a w = (Throw TypeError, w1)
         ∨ (requesting a ∧ method a w = _change_history w1)
         ∨ (¬ requesting a ∧ method a w = (Normal (), w1))).
Proof.
  assert (∀ w1, same_page w w1 →
            (keeps_handle a → debounced w → debounced w1) →
            (∀ p, ¬ assigns a p → prop (this w1) p = prop (this w) p) →
            requesting a →
            ∀ r, r = invoke "_change_history" _change_history w1 →
            ∃ w1, same_page w w1
              ∧ (keeps_handle a → debounced w → debounced w1)
              ∧ (∀ p, ¬ assigns a p → prop (this w1) p = prop (this w) p)
              ∧ (r = (Throw TypeError, w1)
                 ∨ (requesting a ∧ r = _change_history w1)
                 ∨ (¬ requesting a ∧ r = (Normal (), w1)))) as Hupdate.
  { intros w1 Hsame Hw1 Hkept Hreq r ->. exists w1.
    split; [done|]. split; [done|]. split; [done|].
    destruct (update_cases w1) as [[-> _]|[-> _]]; auto. }
  destruct a as [param value|param value|param value flag|params|d];
    [right..|left; by exists d]; cbn [method].
  - destruct (invoke_cases "remove_from_list" (remove_from_list param value) w)
      as [->| ->];
      [|exists w; split; [apply same_page_refl|];
        split; [done|]; split; [done|]; by left].
    destruct (remove_from_list_cases param value w)
      as (w1 & Hsame & Hw1 & Hkept & [->|Heq]).
    + exists w1. split; [done|]. split; [auto|]. split; [|auto].
      intros p Hp. apply Hkept. cbn in Hp. congruence.
    + apply (Hupdate w1); [done|auto| |done|done].
      intros p Hp. apply Hkept. cbn in Hp. congruence.
  - destruct (invoke_cases "add_to_list" (add_to_list param value) w)
      as [->| ->];
      [|exists w; split; [apply same_page_refl|];
        split; [done|]; split; [done|]; by left].
    destruct (add_to_list_cases param value w)
      as (w1 & Hsame & Hthis & [->|Heq]).
    + exists w1. split; [done|].
      split; [intros _; by apply debounced_this|].
      split; [intros p _; by rewrite Hthis|auto].
    + apply (Hupdate w1); [done| | |done|done].
      * intros _. by apply debounced_this.
      * intros p _. by rewrite Hthis.
  - destruct (invoke_cases "change_param" (change_param param value flag) w)
      as [->| ->];
      [|exists w; split; [apply same_page_refl|];
        split; [done|]; split; [done|]; by left].
    rewrite change_param_eq.
    assert (same_page w (with_this (assign param value (this w)) w)) as Hsame
      by apply same_page_with_this.
    assert (∀ p, p ≠ param →
              prop (this (with_this (assign param value (this w)) w)) p
              = prop (this w) p) as Hkept.
    { intros p Hp. cbn [this with_this]. by apply prop_assign_ne. }
    assert (param ≠ "timeout" → debounced w →
            debounced (with_this (assign param value (this w)) w)) as Hw1.
    { intros Hne. apply same_page_debounced; [done|]. by apply Hkept. }
    destruct flag.
    + apply (Hupdate _ Hsame); [done| |done|done].
      intros p Hp. apply Hkept. cbn in Hp. congruence.
    + eexists. split; [exact Hsame|]. split; [done|].
      split; [intros p Hp; apply Hkept; cbn in Hp; congruence|].
      right; right. by split.
  - destruct (invoke_cases "change_params" (change_params params) w)
      as [->| ->];
      [|exists w; split; [apply same_page_refl|];
        split; [done|]; split; [done|]; by left].
    rewrite change_params_eq.
    assert (∀ p, params !! p = None →
              prop (this (with_this (map_fold assign (this w) params) w)) p
              = prop (this w) p) as Hkept.
    { intros p Hp. cbn [this with_this]. unfold prop.
      by rewrite (proj1 (assign_all_lookup params (this w) p) Hp). }
    apply (Hupdate (with_this (map_fold assign (this w) params) w));
      [apply same_page_with_this| | |done|done].
    + intros Hne. apply same_page_debounced; [apply same_page_with_this|].
      by apply Hkept.
    + intros p Hp. apply Hkept. cbn in Hp. by apply eq_None_not_Some.
Qed.

Lemma perform_debounced a w :
  keeps_handle a → debounced w → debounced (perform a w).
Proof.
  intros Hkeep Hw. unfold perform.
  destruct (method_cases a w)
    as [[d ->]|(w1 & _ & Hw1 & _ & [->|[[_ ->]|[_ ->]]])].
  - by apply elapse_debounced.
  - by apply Hw1.
  - apply request_debounced. by apply Hw1.
  - by apply Hw1.
Qed.

Lemma run_debounced (trace : list action) w :
  Forall keeps_handle trace → debounced w → debounced (run trace w).
Proof.
  intros Htrace. revert w. induction Htrace as [|a trace Ha _ IH]; intros w Hw.
  - done.
  - cbn. apply IH. by apply perform_debounced.
Qed.

Lemma debounced_one_pending w : debounced w → (length (timers w) ≤ 1)%nat.
Proof. intros [->|(t & -> & _)]; cbn; lia. Qed.

(** A call that asks for a history update and completes, in a debounced
    page: its timer is the only one pending, and nothing was written. *)
Lemma perform_request a w :
  keeps_handle a → requesting a → outcome a w = Normal () → debounced w →
  let w' := perform a w in
  debounced w'
  ∧ timers w'
    = [mkTimer (next_timer w) (clock w + 300)
         (HistoryWrite (history_url (this w') (arrays w') (location w')))]
  ∧ writes w' = writes w ∧ clock w' = clock w.
Proof.
  intros Hkeep Hreq Hnormal Hw. unfold outcome in Hnormal. unfold perform.
  destruct (method_cases a w)
    as [[d ->]|(w1 & Hsame & Hw1 & _ & [Hthrow|[[_ Heq]|[Hsilent _]]])].
  - done.
  - by rewrite Hthrow in Hnormal.
  - rewrite Heq. cbn zeta. split; [apply request_debounced; auto|].
    rewrite request_timers by auto.
    destruct Hsame as (Hloc & _ & _ & Hclock & _ & Hnext & Hwrites).
    rewrite change_history_eq. cbn [snd this arrays location writes clock].
    by rewrite history_url_timeout, Hnext, Hclock, Hwrites.
  - done.
Qed.


End Debounce.

(** ** Errors *)

Section Errors.

Implicit Types (w : world) (param value : string) (o : object).





End Errors.




(** ** Bursts of calls *)

Section Bursts.

Implicit Types (w : world) (a : action) (d : nat).

Lemma request_then_short_wait a d w :
  keeps_handle a → requesting a → outcome a w = Normal () → debounced w →
  (d < 300)%nat →
  let w' := elapse d (perform a w) in
  debounced w' ∧ writes w' = writes w.
Proof.
  intros Hkeep Hreq Hnormal Hw Hd.
  destruct (perform_request a w Hkeep Hreq Hnormal Hw)
    as (Hw1 & Htimers & Hwrites & Hclock).
  cbn zeta. split; [by apply elapse_debounced|].
  rewrite (elapse_pending d _ _ Htimers) by (cbn; lia). done.
Qed.

Lemma request_then_long_wait a d w :
  keeps_handle a → requesting a → outcome a w = Normal () → debounced w →
  (300 ≤ d)%nat →
  let w1 := perform a w in
  let url := history_url (this w1) (arrays w1) (location w1) in
  writes (elapse d w1) = (writes w ++ [mkEntry "WMS UI" url])%list
  ∧ location (elapse d w1) = url
  ∧ timers (elapse d w1) = [].
Proof.
  intros Hkeep Hreq Hnormal Hw Hd.
  destruct (perform_request a w Hkeep Hreq Hnormal Hw)
    as (Hw1 & Htimers & Hwrites & Hclock).
  cbn zeta. rewrite (elapse_fires d _ _ Htimers) by (cbn; lia).
  cbn. by rewrite Hwrites.
Qed.

Lemma burst_quiet (calls : list (action * nat)) w :
  debounced w → in_burst calls w →
  debounced (burst calls w) ∧ writes (burst calls w) = writes w.
Proof.
  revert w. induction calls as [|[a d] rest IH]; intros w Hw Hcalls; [done|].
  destruct Hcalls as (Hkeep & Hreq & Hnormal & Hd & Hrest).
  destruct (request_then_short_wait a d w Hkeep Hreq Hnormal Hw Hd)
    as [Hw' Hwrites].
  cbn [burst]. destruct (IH _ Hw' Hrest) as [Hend Hquiet].
  split; [done|]. by rewrite Hquiet.
Qed.

End Bursts.

(** C2 (amended).  As long as no call assigns the property [timeout]
    ([change_param("timeout", ...)], or [change_params] with that key):
    - a page with at most one write pending, that write being the one
      [this.timeout] names, stays so under every sequence of calls and
      waits, and a freshly constructed controller starts so;
    - in such a page a history update leaves exactly one timer pending, its
      own, due 300 time units later: what was pending before is cancelled;
    - a burst of calls, each completing with a history update less than 300
      time units after the previous one, followed by a last such call and a
      wait of 300 or more, makes exactly one write, of the URL of the fields
      as the last call left them. *)
Theorem debounce :
  (∀ default_base_layer default_lat default_lon default_zoom w,
     timers w = [] →
     debounced
       (constructor default_base_layer default_lat default_lon default_zoom w).2)
  ∧ (∀ (trace : list action) w,
       debounced w → Forall keeps_handle trace →
       debounced (run trace w) ∧ (length (timers (run trace w)) ≤ 1)%nat)
  ∧ (∀ w,
       debounced w →
       timers (_change_history w).2
       = [mkTimer (next_timer w) (clock w + 300)
            (HistoryWrite (history_url (this w) (arrays w) (location w)))])
  ∧ (∀ (calls : list (action * nat)) (a : action) (d : nat) w,
       debounced w → in_burst calls w →
       let w1 := burst calls w in
       keeps_handle a → requesting a → outcome a w1 = Normal () →
       (300 ≤ d)%nat →
       let w2 := perform a w1 in
       let url := history_url (this w2) (arrays w2) (location w2) in
       writes (elapse d w2) = (writes w ++ [mkEntry "WMS UI" url])%list
       ∧ location (elapse d w2) = url
       ∧ timers (elapse d w2) = []).
Proof.
  split; [intros; by left|].
  split.
  { intros trace w Hw Htrace.
    assert (debounced (run trace w)) by (by apply run_debounced).
    split; [done|by apply debounced_one_pending]. }
  split; [apply request_timers|].
  intros calls a d w Hw Hcalls w1 Hkeep Hreq Hnormal Hd.
  destruct (burst_quiet calls w Hw Hcalls) as [Hw1 Hquiet].
  cbn zeta. rewrite <- Hquiet.
  by apply request_then_long_wait.
Qed.

(** Three calls, 100 time units apart, then a wait of 300: one write, with
    the zoom of the first call and the list as the last call left it. *)
Lemma debounce_three_calls_example :
  let w := Example.with_layers [] in
  let calls := [(ChangeParam "zoom" (Num (Number "7")) true, 100);
                (AddToList "layers" "x", 100)] in
  let w3 := perform (RemoveFromList "layers" "x") (burst calls w) in
  writes w = []
  ∧ writes (elapse 300 w3)
    = [mkEntry "WMS UI"
         (mkURL "https://maps.example/wms"
            [("lat", "5"); ("zoom", "7"); ("lon", "0"); ("base", "osm")] "")]
  ∧ timers (elapse 300 w3) = [].
Proof.
  intros w calls w3.
  assert (debounced w) as Hw by (by left).
  assert (in_burst calls w) as Hcalls.
  { cbn. repeat split; first [done | lia]. }
  destruct (proj2 (proj2 (proj2 debounce)) calls
              (RemoveFromList "layers" "x") 300 w Hw Hcalls I I eq_refl
              (le_n 300))
    as (Hwrites & _ & Htimers).
  split; [reflexivity|]. split; [exact Hwrites|exact Htimers].
Defined.

(** C2 as stated fails: three calls 100 time units apart, the second of
    them [change_param("timeout", null)].  That call overwrites the handle
    before the history update can cancel the pending write, so two writes
    are pending after it and two writes are made in the end. *)
Lemma debounce_timeout_counterexample :
  let w := Example.loaded ∅ in
  let w1 := perform (ChangeParam "zoom" (Num (Number "7")) true) w in
  let w2 := perform (ChangeParam "timeout" Null true) (elapse 100 w1) in
  let w3 := perform (ChangeParam "lat" (Num (Number "9")) true) (elapse 100 w2) in
  length (timers w1) = 1
  ∧ length (timers w2) = 2
  ∧ length (writes w) = 0
  ∧ length (writes (elapse 300 w3)) = 2.
Proof. by repeat split. Qed.

Lemma run_handlers_writes (due : list timer) (w : world) :
  writes (foldl (λ w t, run_handler (timer_handler t) w) w due)
  = (writes w ++ ((written_by ∘ timer_handler) <$> due))%list.
Proof.
  revert w. induction due as [|t due IH]; intros w; cbn [foldl fmap list_fmap].
  - by rewrite app_nil_r.
  - rewrite IH. destruct (timer_handler t) as [current_url] eqn:Hhandler.
    cbn. rewrite Hhandler. cbn. by rewrite <- app_assoc.
Qed.

(** The writes made while time passes are those of the timers that came
    due, each of the URL its delayed function captured. *)
Lemma elapse_writes (d : nat) (w : world) :
  writes (elapse d w)
  = (writes w
     ++ ((written_by ∘ timer_handler)
         <$> filter (λ t, (timer_due t ≤ clock w + d)%nat) (timers w)))%list.
Proof. unfold elapse. by rewrite run_handlers_writes. Qed.

(** C10.  The URL that the delayed function writes is fixed when the
    history update is requested: it is [history_url] of the fields, arrays
    and location of the page [w] in which [_change_history] ran.  Let [w']
    be any page with the timer queue and the clock that the request left:
    its location, its controller's fields and its arrays may all have
    changed since.  Once the delay has passed, the URL computed from [w] has
    been written in [w']; and when the controller's timer was the only one
    pending, that is the one write made, and it becomes the location. *)
Theorem write_fixed_at_request (w w' : world) (d : nat) :
  timers w' = timers (_change_history w).2 →
  clock w' = clock w →
  (300 ≤ d)%nat →
  let url := history_url (this w) (arrays w) (location w) in
  mkEntry "WMS UI" url ∈ writes (elapse d w')
  ∧ (debounced w →
       writes (elapse d w') = (writes w' ++ [mkEntry "WMS UI" url])%list
       ∧ location (elapse d w') = url)
  ∧ this (elapse d w') = this w'
  ∧ arrays (elapse d w') = arrays w'.
Proof.
  intros Htimers Hclock Hd url.
  split.
  { rewrite elapse_writes. apply elem_of_app. right.
    apply (list_elem_of_fmap_2 (written_by ∘ timer_handler)
             _ (mkTimer (next_timer w) (clock w + 300) (HistoryWrite url))).
    apply list_elem_of_filter. split; [cbn; lia|].
    rewrite Htimers, change_history_eq. apply elem_of_enqueue. }
  split.
  { intros Hw. rewrite request_timers in Htimers by done.
    rewrite (elapse_fires d w' _ Htimers) by (cbn; lia). by cbn. }
  split; [apply elapse_this|apply elapse_arrays].
Qed.

(** After the request, [lat] is changed silently to 99 and the page's
    query string to [?other=1]; the write still carries [lat=5] and the
    query string of the request. *)
Lemma write_fixed_at_request_example :
  let w := Example.loaded ∅ in
  let w1 := (_change_history w).2 in
  let w2 := (change_param "lat" (Num (Number "99")) false w1).2 in
  let w' := mkWorld (this w2) (mkURL "https://maps.example/wms" [("other", "1")] "")
              (entries w2) (index w2) (clock w2) (timers w2) (next_timer w2)
              (arrays w2) (writes w2) in
  prop (this w') "lat" = Num (Number "99")
  ∧ writes (elapse 300 w')
    = [mkEntry "WMS UI"
         (mkURL "https://maps.example/wms"
            [("lat", "5"); ("zoom", "3"); ("lon", "0"); ("base", "osm")] "")].
Proof.
  intros w w1 w2 w'.
  assert (debounced w) as Hw by (by left).
  destruct (write_fixed_at_request w w' 300 eq_refl eq_refl (le_n 300))
    as (_ & Hexact & _).
  split; [reflexivity|exact (proj1 (Hexact Hw))].
Defined.

(** ** Lists without duplicates *)

Section Duplicates.

Implicit Types (w : world) (a : action) (known : loc → Prop) (l : loc).

Lemma clean_same_arrays known w w1 :
  arrays w1 = arrays w → (∀ l, holds (this w1) l → holds (this w) l) →
  clean known w → clean known w1.
Proof.
  intros Harrays Hholds Hw l [Hknown|Hl]; rewrite Harrays; apply Hw; auto.
Qed.

Lemma clean_update known w :
  clean known w → clean known (invoke "_change_history" _change_history w).2.
Proof.
  intros Hw. destruct (update_cases w) as [[-> _]|[-> _]]; [done|].
  revert Hw. apply clean_same_arrays; [apply change_history_arrays|].
  intros l. rewrite change_history_this.
  by intros [?|?]%insert_holds.
Qed.

(** A value pushed onto a list that does not have it. *)
Lemma clean_push known w l (value : string) :
  clean known w → holds (this w) l → value ∉ contents (arrays w) l →
  clean known
    (with_arrays (<[l := (contents (arrays w) l ++ [value])%list]> (arrays w)) w).
Proof.
  intros Hw Hl Hout l' Hl'. cbn [this arrays with_arrays] in *.
  unfold contents at 1. destruct (decide (l = l')) as [<-|Hne].
  - rewrite lookup_insert_eq. cbn. apply NoDup_push; [done|].
    apply Hw. by right.
  - rewrite lookup_insert_ne by done. by apply Hw.
Qed.

(** A list filtered into a new array, to which a field is rebound. *)
Lemma clean_filter known w (param value : string) l (l' : loc) :
  clean known w → holds (this w) l →
  clean known
    (with_this (assign param (Array l') (this w))
       (with_arrays
          (<[l' := filter (λ item, item ≠ value) (contents (arrays w) l)]>
           (arrays w)) w)).
Proof.
  intros Hw Hl l0 Hl0. cbn [this arrays with_this with_arrays] in *.
  unfold contents at 1. destruct (decide (l' = l0)) as [<-|Hne].
  - rewrite lookup_insert_eq. cbn. apply NoDup_filter, Hw. by right.
  - rewrite lookup_insert_ne by done. apply Hw.
    destruct Hl0 as [Hknown|Hheld]; [by left|].
    apply assign_holds in Hheld as [[= Heq]|Hheld]; [by destruct Hne|by right].
Qed.

Lemma clean_assign known w (param : string) (v : jsval) :
  (∀ l, v = Array l → known l) → clean known w →
  clean known (with_this (assign param v (this w)) w).
Proof.
  intros Hv Hw l [Hknown|Hheld]; cbn [this arrays with_this] in *.
  - apply Hw. by left.
  - apply assign_holds in Hheld as [->|Hheld]; apply Hw;
      [left; by apply Hv|by right].
Qed.

Lemma clean_assign_all known w (params : gmap string jsval) :
  (∀ l name, params !! name = Some (Array l) → known l) → clean known w →
  clean known (with_this (map_fold assign (this w) params) w).
Proof.
  intros Hparams Hw l [Hknown|Hheld]; cbn [this arrays with_this] in *.
  - apply Hw. by left.
  - apply assign_all_holds in Hheld as [[name Hname]|Hheld]; apply Hw;
      [left; by eapply Hparams|by right].
Qed.

(** A call keeps the lists clean when the lists it hands over are. *)
Lemma perform_clean known a w :
  (∀ l, hands a l → known l) → clean known w → clean known (perform a w).
Proof.
  intros Hhands Hw. unfold perform.
  destruct a as [param value|param value|param value flag|params|d];
    cbn [method hands] in *.
  - destruct (invoke_cases "remove_from_list" (remove_from_list param value) w)
      as [->| ->]; [|done].
    destruct (read (this w) (arrays w) param) as [| |b|n|s|l|id] eqn:Hread.
    1-4,7: by rewrite remove_from_list_other by (by rewrite Hread).
    + rewrite (remove_from_list_string param value s w Hread).
      destruct (string_includes s value); [done|by apply clean_update].
    + rewrite (remove_from_list_array param value l w Hread).
      apply clean_update. case_decide; [|done].
      apply clean_filter; [done|]. by eapply read_holds.
  - destruct (invoke_cases "add_to_list" (add_to_list param value) w)
      as [->| ->]; [|done].
    destruct (read (this w) (arrays w) param) as [| |b|n|s|l|id] eqn:Hread.
    1-4,7: by rewrite add_to_list_other by (by rewrite Hread).
    + rewrite (add_to_list_string param value s w Hread).
      destruct (string_includes s value); [by apply clean_update|done].
    + rewrite (add_to_list_array param value l w Hread).
      apply clean_update. case_decide; [done|].
      apply clean_push; [done| |done]. by eapply read_holds.
  - destruct (invoke_cases "change_param" (change_param param value flag) w)
      as [->| ->]; [|done].
    rewrite change_param_eq.
    assert (clean known (with_this (assign param value (this w)) w)) as Hw1
      by (apply clean_assign; [intros l ->; by apply Hhands|done]).
    destruct flag; [by apply clean_update|done].
  - destruct (invoke_cases "change_params" (change_params params) w)
      as [->| ->]; [|done].
    rewrite change_params_eq. apply clean_update, clean_assign_all; [|done].
    intros l name Hname. apply Hhands. by exists name.
  - cbn. revert Hw. apply clean_same_arrays; [apply elapse_arrays|].
    intros l. by rewrite elapse_this.
Qed.

Lemma run_clean known (trace : list action) w :
  Forall (λ a, ∀ l, hands a l → known l) trace →
  clean known w → clean known (run trace w).
Proof.
  intros Htrace. revert w.
  induction Htrace as [|a trace Ha _ IH]; intros w Hw; [done|].
  cbn. by apply IH, perform_clean.
Qed.

Lemma or_else_Array (a : option string) (default : jsval) l :
  or_else a default = Array l → default = Array l.
Proof. destruct a as [s|]; cbn; [|done]. by case_decide. Qed.

(** The new controller holds no array but those among the defaults. *)
Lemma constructor_holds base default_lat default_lon default_zoom w l :
  holds (this (constructor base default_lat default_lon default_zoom w).2) l →
  Array l ∈ [base; default_lat; default_lon; default_zoom].
Proof.
  rewrite constructor_eq. cbn [snd this with_this].
  intros [[=]|[Hv|[Hv|[Hv|[Hv|Hempty]%insert_holds]%insert_holds
    ]%insert_holds]%insert_holds]%insert_holds.
  - apply or_else_Array in Hv as ->. apply list_elem_of_here.
  - apply or_else_Array in Hv as ->. do 3 apply list_elem_of_further.
    apply list_elem_of_here.
  - apply or_else_Array in Hv as ->. do 2 apply list_elem_of_further.
    apply list_elem_of_here.
  - apply or_else_Array in Hv as ->. apply list_elem_of_further.
    apply list_elem_of_here.
  - destruct Hempty as [[field Hfield]|Hproto]; [|done].
    change ((∅ : gmap string jsval) !! field = Some (Array l)) in Hfield.
    by rewrite lookup_empty in Hfield.
Qed.

End Duplicates.

(** C7 (amended).  The mutators store the arrays they are given as they
    are, and [add_to_list] and [remove_from_list] never introduce a
    duplicate.  So if the lists handed to the controller (the arrays among
    the defaults of the constructor and among the arguments of the calls)
    are free of duplicates, then after every sequence of calls of the four
    mutators (and waits) every field that holds a list holds one without
    duplicates. *)
Theorem lists_stay_duplicate_free
    (default_base_layer default_lat default_lon default_zoom : jsval)
    (trace : list action) (w : world) :
  (∀ l, Array l ∈ [default_base_layer; default_lat; default_lon; default_zoom]
        ∨ Exists (λ a, hands a l) trace →
        NoDup (contents (arrays w) l)) →
  let w0 := (constructor default_base_layer default_lat default_lon
               default_zoom w).2 in
  let w' := run trace w0 in
  ∀ field l, prop (this w') field = Array l → NoDup (contents (arrays w') l).
Proof.
  intros Hhanded w0 w'.
  set (known := λ l : loc,
         Array l ∈ [default_base_layer; default_lat; default_lon; default_zoom]
         ∨ Exists (λ a, hands a l) trace).
  assert (clean known w0) as Hw0.
  { intros l Hl.
    assert (arrays w0 = arrays w) as -> by (subst w0; by rewrite constructor_eq).
    apply Hhanded. destruct Hl as [Hknown|Hheld]; [done|].
    left. by apply constructor_holds in Hheld. }
  assert (clean known w') as Hw'.
  { subst w'. apply run_clean; [|done]. apply Forall_forall.
    intros a Ha l Hl. right. apply Exists_exists. by exists a. }
  intros field l Hfield%prop_Array. apply Hw'. right; left. by exists field.
Qed.

(** An empty list is stored, then ["x"] is added twice, ["y"] once, and
    ["x"] is removed. *)
Lemma lists_stay_duplicate_free_example :
  let trace := [ChangeParam "layers" (Array Example.layers) true;
                AddToList "layers" "x"; AddToList "layers" "x";
                AddToList "layers" "y"; RemoveFromList "layers" "x"] in
  let w' := run trace (Example.loaded {[Example.layers := []]}) in
  ∃ l, prop (this w') "layers" = Array l
       ∧ contents (arrays w') l = ["y"]
       ∧ NoDup (contents (arrays w') l).
Proof.
  intros trace w'.
  assert (∀ l, NoDup (contents ({[Example.layers := []]} : store) l)) as Hfree.
  { intros l. unfold contents.
    destruct (({[Example.layers := []]} : store) !! l) as [xs|] eqn:Hl;
      [|apply NoDup_nil_2].
    apply lookup_singleton_Some in Hl as [_ <-]. apply NoDup_nil_2. }
  pose proof (lists_stay_duplicate_free Example.osm Example.zero Example.zero
                Example.one trace
                (Example.page [("lat", "5"); ("zoom", "3")]
                   {[Example.layers := []]}) (λ l _, Hfree l)) as Hlists.
  exists 2%positive. split; [reflexivity|]. split; [reflexivity|].
  by apply (Hlists "layers").
Defined.

(** C7 as stated fails: after construction, one [change_param] stores a
    list that holds ["x"] twice. *)
Lemma stored_duplicates_counterexample :
  let w := perform (ChangeParam "layers" (Array Example.layers) true)
             (Example.loaded {[Example.layers := ["x"; "x"]]}) in
  prop (this w) "layers" = Array Example.layers
  ∧ contents (arrays w) Example.layers = ["x"; "x"]
  ∧ ¬ NoDup (contents (arrays w) Example.layers).
Proof.
  split; [reflexivity|]. split; [reflexivity|].
  intros Hnodup. change (NoDup ["x"; "x"]) in Hnodup.
  apply NoDup_cons in Hnodup as [Hx _]. apply Hx. by left.
Qed.

(** ** Two fields, one array *)

Section Lists.

Implicit Types (w : world) (param value : string) (l : loc).



End Lists.



(** ** The colour picker *)

Section Colours.

Open Scope Z_scope.

Local Abbreviation P := Binary64.gap.

Lemma one_eq : Binary64.one = 2 ^ 53 * P.
Proof. unfold Binary64.one, Binary64.gap. by rewrite <- Z.pow_add_r. Qed.

Lemma P_pos : 0 < P.
Proof. by apply Z.pow_pos_nonneg. Qed.

(** The largest double below 1 is [1 - 2^-53]. *)
Lemma below_one (r : Z) :
  Binary64.representable r = true → r < Binary64.one →
  r ≤ Binary64.one - P.
Proof.
  intros [[Hnonneg _]%andb_prop Hbits%Z.eqb_eq]%andb_prop Hlt.
  apply Z.leb_le in Hnonneg. pose proof P_pos as HP.
  rewrite one_eq in *.
  destruct (decide (r < 2 ^ 52 * P)) as [Hsmall|Hlarge]; [lia|].
  assert (Z.log2 r = 1073) as Hlog.
  { apply Z.log2_unique; [lia|]. change (Z.succ 1073) with (53 + 1021).
    change 1073 with (52 + 1021). rewrite !Z.pow_add_r by lia.
    fold Binary64.gap. lia. }
  unfold Binary64.dropped_bits in Hbits. rewrite Hlog in Hbits.
  change (Z.max 0 (1073 - 52)) with 1021 in Hbits. fold Binary64.gap in Hbits.
  assert (r / P < 2 ^ 53) as Hk by (apply Z.div_lt_upper_bound; lia).
  assert (P * (r / P) ≤ P * (2 ^ 53 - 1)) as Hmul
    by (apply Z.mul_le_mono_nonneg_l; lia).
  pose proof (Z.div_mod r P) as Hdiv. lia.
Qed.

(** Rounding moves a number by half a unit in the last place at most. *)
Lemma round_near (n : Z) :
  0 ≤ n →
  0 ≤ Binary64.round n
  ∧ 2 * Binary64.round n ≤ 2 * n + 2 ^ Binary64.dropped_bits n.
Proof.
  intros Hn. unfold Binary64.round.
  set (s := Binary64.dropped_bits n).
  assert (0 ≤ s) as Hs by (unfold s, Binary64.dropped_bits; lia).
  assert (0 < 2 ^ s) as Hpow by (by apply Z.pow_pos_nonneg).
  pose proof (Z.div_mod n (2 ^ s)) as Hdiv.
  pose proof (Z.mod_pos_bound n (2 ^ s) Hpow) as Hmod.
  assert (0 ≤ n / 2 ^ s) as Hq by (by apply Z.div_pos).
  set (q := n / 2 ^ s) in *. set (r := n mod 2 ^ s) in *.
  set (Q := 2 ^ s) in *.
  assert ((q + 1) * Q = q * Q + Q) as Hup by ring.
  assert (Q * q = q * Q) as Hcomm by ring.
  assert (0 ≤ q * Q) by (apply Z.mul_nonneg_nonneg; lia).
  repeat case_match; rewrite ?Z.ltb_lt, ?Z.ltb_ge in *; lia.
Qed.

Lemma dropped_bits_bound (n : Z) :
  0 ≤ n → n < 2 ^ 56 * P → 2 ^ Binary64.dropped_bits n ≤ 8 * P.
Proof.
  intros Hn Hlt. unfold Binary64.dropped_bits.
  assert (Z.log2 n ≤ 1076) as Hlog.
  { destruct (decide (n = 0)) as [->|Hpos]; [done|].
    apply Z.lt_succ_r, Z.log2_lt_pow2; [lia|].
    change (Z.succ 1076) with (56 + 1021). rewrite Z.pow_add_r by lia.
    by fold Binary64.gap. }
  change 8 with (2 ^ 3). unfold Binary64.gap. rewrite <- Z.pow_add_r by lia.
  apply Z.pow_le_mono_r; lia.
Qed.

(** The index stays inside the palette: [7 * r] never rounds up to 7. *)
Lemma index_in_range (r : Z) :
  Binary64.representable r = true → r < Binary64.one →
  0 ≤ Binary64.floor (Binary64.mul 7 r) ≤ 6.
Proof.
  intros Hrep Hlt. pose proof (below_one r Hrep Hlt) as Hr.
  apply andb_prop in Hrep as [[Hnonneg%Z.leb_le _]%andb_prop _].
  pose proof P_pos as HP. rewrite one_eq in Hr.
  unfold Binary64.mul, Binary64.floor.
  destruct (round_near (7 * r)) as [Hlow Hnear]; [lia|].
  pose proof (dropped_bits_bound (7 * r)) as Hbits.
  assert (Binary64.round (7 * r) < 7 * Binary64.one)
    by (rewrite one_eq; lia).
  assert (0 < Binary64.one) by (rewrite one_eq; lia).
  split; [by apply Z.div_pos|].
  apply Z.lt_succ_r. apply Z.div_lt_upper_bound; lia.
Qed.

Lemma palette_lookup (i : Z) :
  0 ≤ i ≤ 6 →
  ∃ c, map_detections_clusters_colors !! Z.to_nat i = Some c
       ∧ c ∈ map_detections_clusters_colors.
Proof.
  intros Hi.
  destruct (lookup_lt_is_Some_2 map_detections_clusters_colors (Z.to_nat i))
    as [c Hc]; [cbn; lia|].
  exists c. split; [done|]. by eapply list_elem_of_lookup_2.
Qed.

End Colours.

(** C9.  For every double [random] with [0 <= random < 1], the index
    [Math.floor(7 * random)] that [randomClusterColor] computes lies in
    [0..6], and the function returns the palette's element at that index,
    never [undefined]; and every one of the seven colours is returned for
    some such [random]. *)
Theorem randomClusterColor_in_palette :
  length map_detections_clusters_colors = 7
  ∧ (∀ random : Z,
       Binary64.representable random = true → (random < Binary64.one)%Z →
       let i := Binary64.floor (Binary64.mul 7 random) in
       (0 ≤ i ≤ 6)%Z
       ∧ randomClusterColor random
         = map_detections_clusters_colors !! Z.to_nat i
       ∧ ∃ c, randomClusterColor random = Some c
              ∧ c ∈ map_detections_clusters_colors)
  ∧ (∀ c, c ∈ map_detections_clusters_colors →
       ∃ random : Z,
         Binary64.representable random = true ∧ (random < Binary64.one)%Z
         ∧ randomClusterColor random = Some c).
Proof.
  split; [reflexivity|]. split.
  - intros random Hrep Hlt i.
    pose proof (index_in_range random Hrep Hlt) as Hi. fold i in Hi.
    split; [exact Hi|]. split; [reflexivity|].
    destruct (palette_lookup i Hi) as (c & Hc & Hin).
    exists c. split; [exact Hc|exact Hin].
  - intros c Hc. unfold map_detections_clusters_colors in Hc.
    repeat (apply elem_of_cons in Hc as [->|Hc]);
      [exists 0%Z | exists (2 * 2 ^ 1071)%Z | exists (3 * 2 ^ 1071)%Z
      | exists (4 * 2 ^ 1071)%Z | exists (5 * 2 ^ 1071)%Z
      | exists (6 * 2 ^ 1071)%Z | exists (7 * 2 ^ 1071)%Z
      | by apply elem_of_nil in Hc];
      by vm_compute.
Qed.

(** The draw [0.625]: index [Math.floor(4.375) = 4], the fifth colour. *)
Lemma randomClusterColor_example :
  randomClusterColor (5 * 2 ^ 1071) = Some "#ff0000".
Proof.
  destruct (proj1 (proj2 randomClusterColor_in_palette) (5 * 2 ^ 1071)%Z
              eq_refl eq_refl)
    as (_ & Hindex & _).
  rewrite Hindex. reflexivity.
Defined.

(** * Further properties *)

(** ** The query string, pair by pair *)

Section QueryOrder.

Implicit Types (name k value : string) (params : list (string * string)).

Lemma delete_absent name params :
  URLSearchParams.getAll name params = [] →
  URLSearchParams.delete name params = params.
Proof.
  unfold URLSearchParams.getAll, URLSearchParams.delete.
  induction params as [|[k v] rest IH]; [done|].
  rewrite !filter_cons. cbn. intros Hnone.
  destruct (decide (k = name)) as [->|Hne].
  - discriminate Hnone.
  - rewrite decide_True by done. f_equal. by apply IH.
Qed.

(** Setting a parameter that occurs once, to the value it has, changes
    nothing. *)
Lemma set_same name value params :
  URLSearchParams.getAll name params = [value] →
  URLSearchParams.set name value params = params.
Proof.
  induction params as [|[k v] rest IH]; [done|].
  cbn [URLSearchParams.set]. unfold URLSearchParams.getAll in *.
  rewrite filter_cons. cbn.
  destruct (decide (k = name)) as [->|Hne]; cbn.
  - intros [= -> Hrest]. f_equal. by apply delete_absent.
  - intros Hrest. f_equal. by apply IH.
Qed.

(** Without a pair of that name, [set] appends one. *)
Lemma set_absent name value params :
  URLSearchParams.get name params = None →
  URLSearchParams.set name value params = (params ++ [(name, value)])%list.
Proof.
  induction params as [|[k v] rest IH]; [done|].
  cbn [URLSearchParams.get URLSearchParams.set].
  case_decide; [done|]. intros Hrest. cbn. f_equal. by apply IH.
Qed.

Lemma get_app_absent name k value params :
  k ≠ name → URLSearchParams.get name params = None →
  URLSearchParams.get name (params ++ [(k, value)])%list = None.
Proof.
  intros Hne. induction params as [|[k' v] rest IH]; cbn.
  - by rewrite decide_False.
  - case_decide; [done|exact IH].
Qed.

(** [set] of one of the four parameters leaves the pairs of all other names
    where they are. *)
Lemma set_keeps_others name value params :
  name ∈ history_params →
  filter (λ kv, kv.1 ∉ history_params) (URLSearchParams.set name value params)
  = filter (λ kv, kv.1 ∉ history_params) params.
Proof.
  intros Hname. induction params as [|[k v] rest IH];
    cbn [URLSearchParams.set].
  - rewrite filter_cons. cbn. by rewrite decide_False by tauto.
  - destruct (decide (k = name)) as [->|Hne].
    + rewrite !filter_cons. cbn. rewrite !decide_False by tauto.
      unfold URLSearchParams.delete. apply list_filter_filter_l.
      intros [k' v'] Hk'. cbn in *. by intros ->.
    + rewrite !filter_cons. cbn. case_decide; by rewrite IH.
Qed.

End QueryOrder.

Ltac history_param :=
  unfold history_params;
  repeat first [apply list_elem_of_here | apply list_elem_of_further].

Ltac not_history_param :=
  let Hin := fresh "Hin" in
  intros Hin; unfold history_params in Hin;
  repeat (apply elem_of_cons in Hin as [Hin|Hin]; [discriminate Hin|]);
  by apply elem_of_nil in Hin.

(** X2.  A history update on a URL that already carries the four fields,
    once each, leaves that URL exactly as it is: no pair moves, none is
    added.  So the URL of a history update is a fixed point of the update:
    requesting again with unchanged fields writes the same URL. *)
Theorem history_update_settles (o : object) (h : store) (u : URL) :
  ((∀ p, p ∈ history_params →
      URLSearchParams.getAll p (searchParams u) = [ToString h (prop o p)]) →
   history_url o h u = u)
  ∧ history_url o h (history_url o h u) = history_url o h u.
Proof.
  assert (∀ u',
    (∀ p, p ∈ history_params →
       URLSearchParams.getAll p (searchParams u') = [ToString h (prop o p)]) →
    history_url o h u' = u') as Hfixed.
  { intros [path params fragment] Hown. rewrite history_url_eq.
    unfold searchParams_set. cbn [origin_path searchParams hash] in *.
    rewrite (set_same "lat") by (apply Hown; history_param).
    rewrite (set_same "lon") by (apply Hown; history_param).
    rewrite (set_same "zoom") by (apply Hown; history_param).
    by rewrite (set_same "base") by (apply Hown; history_param). }
  split; [apply Hfixed|].
  apply Hfixed. intros p Hp. by apply history_url_own.
Qed.

(** The URL written for the loaded page of the examples: a second update
    finds nothing to change in it. *)
Lemma history_update_settles_example :
  let w := Example.loaded ∅ in
  let url := mkURL "https://maps.example/wms"
               [("lat", "5"); ("zoom", "3"); ("lon", "0"); ("base", "osm")] "" in
  history_url (this w) (arrays w) (location w) = url
  ∧ history_url (this w) (arrays w) url = url.
Proof.
  intros w url. split; [reflexivity|].
  apply (proj1 (history_update_settles (this w) (arrays w) url)).
  intros p Hp. unfold history_params in Hp.
  repeat (apply elem_of_cons in Hp as [->|Hp]); [reflexivity..|].
  by apply elem_of_nil in Hp.
Defined.

(** X3.  The history update keeps the pairs of every other name as they
    are and where they are, relative to each other; and on a URL that has
    none of the four parameters it appends them, in the order [lat], [lon],
    [zoom], [base]. *)
Theorem history_update_order (o : object) (h : store) (u : URL) :
  filter (λ kv, kv.1 ∉ history_params) (searchParams (history_url o h u))
  = filter (λ kv, kv.1 ∉ history_params) (searchParams u)
  ∧ ((∀ p, p ∈ history_params → searchParams_get p u = None) →
     searchParams (history_url o h u)
     = (searchParams u
        ++ [("lat", ToString h (prop o "lat"));
            ("lon", ToString h (prop o "lon"));
            ("zoom", ToString h (prop o "zoom"));
            ("base", ToString h (prop o "base"))])%list).
Proof.
  rewrite history_url_eq. unfold searchParams_set, searchParams_get.
  cbn [searchParams]. split.
  - rewrite (set_keeps_others "base") by history_param.
    rewrite (set_keeps_others "zoom") by history_param.
    rewrite (set_keeps_others "lon") by history_param.
    by rewrite (set_keeps_others "lat") by history_param.
  - intros Hnone.
    rewrite (set_absent "lat") by (apply Hnone; history_param).
    rewrite (set_absent "lon")
      by (apply get_app_absent; [done|apply Hnone; history_param]).
    rewrite (set_absent "zoom")
      by (repeat (apply get_app_absent; [done|]); apply Hnone; history_param).
    rewrite (set_absent "base")
      by (repeat (apply get_app_absent; [done|]); apply Hnone; history_param).
    by rewrite <- !app_assoc.
Qed.

(** A page at [?tool=ruler&zoom=3&mode=dark]: [zoom] keeps its place between
    the two other parameters; a page at [?tool=ruler] gets the four
    appended. *)
Lemma history_update_order_example :
  let o : object := {["lat" := Example.zero; "lon" := Example.zero;
                      "zoom" := Example.one; "base" := Example.osm]} in
  searchParams
    (history_url o ∅
       (mkURL "https://maps.example/wms"
          [("tool", "ruler"); ("zoom", "3"); ("mode", "dark")] ""))
  = [("tool", "ruler"); ("zoom", "1"); ("mode", "dark");
     ("lat", "0"); ("lon", "0"); ("base", "osm")]
  ∧ searchParams
      (history_url o ∅ (mkURL "https://maps.example/wms" [("tool", "ruler")] ""))
    = [("tool", "ruler"); ("lat", "0"); ("lon", "0"); ("zoom", "1");
       ("base", "osm")].
Proof.
  intros o. split; [reflexivity|].
  rewrite (proj2 (history_update_order o ∅
                    (mkURL "https://maps.example/wms" [("tool", "ruler")] ""))).
  - reflexivity.
  - intros p Hp. unfold history_params in Hp.
    repeat (apply elem_of_cons in Hp as [->|Hp]); [reflexivity..|].
    by apply elem_of_nil in Hp.
Defined.

(** ** Reloading the page *)

Lemma restored_or_else (text : string) (default : jsval) :
  restored text default (Some (or_else (Some text) default)).
Proof.
  split.
  - intros Htext. by rewrite or_else_present.
  - by intros ->.
Qed.

Lemma get_history_url (o : object) (h : store) (u : URL) (p : string) :
  p ∈ history_params →
  searchParams_get p (history_url o h u) = Some (ToString h (prop o p)).
Proof.
  intros Hp. unfold searchParams_get.
  by rewrite get_head_getAll, history_url_own.
Qed.

(** X4.  Once the write of a call has been made, a controller constructed
    on the page (a reload) finds each of [lat], [lon], [zoom], [base] as the
    text the old controller's field had, as a string whatever the field
    was; a field whose text was empty comes back as the default. *)
Theorem reload_restores_text
    (a : action) (d : nat) (w : world)
    (default_base_layer default_lat default_lon default_zoom : jsval) :
  debounced w → keeps_handle a → requesting a → outcome a w = Normal () →
  (300 ≤ d)%nat →
  let w1 := perform a w in
  let text p := ToString (arrays w1) (prop (this w1) p) in
  let w2 := (constructor default_base_layer default_lat default_lon
               default_zoom (elapse d w1)).2 in
  restored (text "lat") default_lat (this w2 !! "lat")
  ∧ restored (text "lon") default_lon (this w2 !! "lon")
  ∧ restored (text "zoom") default_zoom (this w2 !! "zoom")
  ∧ restored (text "base") default_base_layer (this w2 !! "base").
Proof.
  intros Hw Hkeep Hreq Hnormal Hd w1 text w2.
  destruct (request_then_long_wait a d w Hkeep Hreq Hnormal Hw Hd)
    as (_ & Hlocation & _).
  fold w1 in Hlocation. subst w2. rewrite constructor_eq.
  cbn [snd this with_this]. rewrite Hlocation.
  rewrite !get_history_url by history_param.
  repeat split; apply restored_or_else.
Qed.

(** The zoom is set to the number 7; after the write, a reload reads the
    string ["7"]. *)
Lemma reload_restores_text_example :
  let w1 := perform (ChangeParam "zoom" (Num (Number "7")) true)
              (Example.loaded ∅) in
  let w2 := (constructor Example.osm Example.zero Example.zero Example.one
               (elapse 300 w1)).2 in
  this w1 !! "zoom" = Some (Num (Number "7"))
  ∧ this w2 !! "zoom" = Some (Str "7").
Proof.
  intros w1 w2. split; [reflexivity|].
  assert (debounced (Example.loaded ∅)) as Hw by (by left).
  destruct (reload_restores_text
              (ChangeParam "zoom" (Num (Number "7")) true) 300
              (Example.loaded ∅) Example.osm Example.zero Example.zero
              Example.one Hw ltac:(discriminate) eq_refl eq_refl (le_n 300))
    as (_ & _ & Hzoom & _).
  apply (proj1 Hzoom). discriminate.
Defined.

(** ** Calls further apart than the delay *)

(** X5.  Calls that each complete with a history update and are each
    followed by a wait of 300 or more are not merged: every one of them
    makes its own write, in order, of the URL of the fields as that call
    left them, and nothing stays pending. *)
Theorem spaced_calls_all_write (calls : list (action * nat)) (w : world) :
  debounced w → spaced calls w →
  writes (burst calls w)
  = (writes w ++ (mkEntry "WMS UI" <$> urls_requested calls w))%list
  ∧ length (urls_requested calls w) = length calls
  ∧ (calls ≠ [] → timers (burst calls w) = []).
Proof.
  revert w. induction calls as [|[a d] rest IH]; intros w Hw Hcalls.
  - cbn. by rewrite app_nil_r.
  - destruct Hcalls as (Hkeep & Hreq & Hnormal & Hd & Hrest).
    destruct (request_then_long_wait a d w Hkeep Hreq Hnormal Hw Hd)
      as (Hwrites & _ & Htimers).
    assert (debounced (elapse d (perform a w))) as Hw' by (by left).
    destruct (IH _ Hw' Hrest) as (Hall & Hlength & Hnone).
    cbn [burst urls_requested fmap list_fmap length].
    rewrite Hall, Hwrites, <- app_assoc. split; [done|].
    split; [by rewrite Hlength|]. intros _.
    destruct rest as [|call rest]; [exact Htimers|by apply Hnone].
Qed.

(** The zoom is set to 7 and, 400 time units later, to 8: two writes. *)
Lemma spaced_calls_all_write_example :
  let calls := [(ChangeParam "zoom" (Num (Number "7")) true, 400);
                (ChangeParam "zoom" (Num (Number "8")) true, 300)] in
  let url zoom := mkURL "https://maps.example/wms"
                    [("lat", "5"); ("zoom", zoom); ("lon", "0"); ("base", "osm")]
                    "" in
  writes (burst calls (Example.loaded ∅))
  = [mkEntry "WMS UI" (url "7"); mkEntry "WMS UI" (url "8")].
Proof.
  intros calls url.
  assert (debounced (Example.loaded ∅)) as Hw by (by left).
  assert (spaced calls (Example.loaded ∅)) as Hcalls.
  { cbn. repeat split; first [done | lia]. }
  exact (proj1 (spaced_calls_all_write calls (Example.loaded ∅) Hw Hcalls)).
Defined.

(** ** One call or several *)

Section Batches.

Implicit Types (o : object) (params : gmap string jsval) (param : string).




End Batches.



(** ** Adding and removing the same value *)

Section RoundTrip.

Implicit Types (w : world) (param value : string) (l : loc).



End RoundTrip.



(** ** What never reaches the URL *)

Section Unwritten.

Implicit Types (w : world) (a : action) (o : object) (h : store).

Lemma history_param_not_timeout (p : string) :
  p ∈ history_params → p ≠ "timeout".
Proof. intros Hp ->. revert Hp. not_history_param. Qed.

Lemma ToString_scalar h h' (v : jsval) :
  (∀ l, v ≠ Array l) → ToString h' v = ToString h v.
Proof. intros Hv. destruct v; try done. by destruct (Hv l). Qed.

Lemma history_url_text o o' h h' (u : URL) :
  (∀ p, p ∈ history_params →
     ToString h' (prop o' p) = ToString h (prop o p)) →
  history_url o' h' u = history_url o h u.
Proof.
  intros Htext. rewrite !history_url_eq.
  by rewrite !Htext by history_param.
Qed.

(** A call that does not assign one of the four fields leaves them as they
    are. *)
Lemma perform_keeps_view a w (p : string) :
  p ∈ history_params → ¬ assigns a p →
  prop (this (perform a w)) p = prop (this w) p.
Proof.
  intros Hp Ha. pose proof (history_param_not_timeout p Hp) as Hne.
  unfold perform.
  destruct (method_cases a w)
    as [[d ->]|(w1 & _ & _ & Hkept & [->|[[_ ->]|[_ ->]]])]; cbn [snd].
  - cbn. by rewrite elapse_this.
  - by apply Hkept.
  - rewrite change_history_this, prop_insert_ne by done. by apply Hkept.
  - by apply Hkept.
Qed.

Lemma run_keeps_view (trace : list action) w (p : string) :
  p ∈ history_params → Forall (λ a, ¬ assigns a p) trace →
  prop (this (run trace w)) p = prop (this w) p.
Proof.
  intros Hp Htrace. revert w.
  induction Htrace as [|a trace Ha _ IH]; intros w; [done|].
  change (run (a :: trace) w) with (run trace (perform a w)).
  rewrite IH. by apply perform_keeps_view.
Qed.

End Unwritten.

(** X8.  Only [lat], [lon], [zoom] and [base] reach the URL.  While these
    four hold no array and no call assigns them, every call on other
    fields, [add_to_list] and [remove_from_list] on the list fields
    included, requests history updates that all write the same URL: the
    lists are never written. *)
Theorem other_fields_never_written (trace : list action) (w : world) :
  scalar_view (this w) →
  Forall (λ a, ∀ p, p ∈ history_params → ¬ assigns a p) trace →
  let w' := run trace w in
  scalar_view (this w')
  ∧ (∀ p, p ∈ history_params → prop (this w') p = prop (this w) p)
  ∧ (∀ u, history_url (this w') (arrays w') u
          = history_url (this w) (arrays w) u).
Proof.
  intros Hview Htrace w'.
  assert (∀ p, p ∈ history_params → prop (this w') p = prop (this w) p)
    as Hsame.
  { intros p Hp. apply run_keeps_view; [done|].
    eapply Forall_impl; [exact Htrace|]. intros a Ha. by apply Ha. }
  split; [|split; [exact Hsame|]].
  - intros p l Hp. rewrite Hsame by done. by apply Hview.
  - intros u. apply history_url_text. intros p Hp.
    rewrite Hsame by done. apply ToString_scalar.
    intros l. by apply Hview.
Qed.

(** Two values are added to [layers] and one is removed, 400 time units
    apart: each of the three writes is the URL that the page would have
    written before. *)
Lemma other_fields_never_written_example :
  let w := Example.with_layers [] in
  let trace := [AddToList "layers" "x"; Elapse 400; AddToList "layers" "y";
                Elapse 400; RemoveFromList "layers" "x"; Elapse 400] in
  let url := history_url (this w) (arrays w) (location w) in
  writes (run trace w)
  = [mkEntry "WMS UI" url; mkEntry "WMS UI" url; mkEntry "WMS UI" url]
  ∧ history_url (this (run trace w)) (arrays (run trace w)) (location w) = url.
Proof.
  intros w trace url. split; [reflexivity|].
  apply (other_fields_never_written trace w).
  - intros p l Hp. unfold history_params in Hp.
    repeat (apply elem_of_cons in Hp as [->|Hp]); [discriminate..|].
    by apply elem_of_nil in Hp.
  - repeat constructor; cbn; intros p Hp; try tauto;
      intros <-; revert Hp; not_history_param.
Defined.

(** ** What the controller never does to the page *)

Section Frame.

Implicit Types (w : world) (a : action) (u : URL) (t : timer).

Lemma same_frame_refl u : same_frame u u.
Proof. by repeat split. Qed.

Lemma same_frame_trans u1 u2 u3 :
  same_frame u1 u2 → same_frame u2 u3 → same_frame u1 u3.
Proof.
  unfold same_frame. intros (?&?&?) (?&?&?). repeat split; congruence.
Qed.

Lemma same_frame_history_url (o : object) (h : store) u :
  same_frame u (history_url o h u).
Proof.
  rewrite history_url_eq. unfold same_frame, searchParams_set.
  cbn [origin_path hash searchParams]. split; [done|]. split; [done|].
  rewrite (set_keeps_others "base") by history_param.
  rewrite (set_keeps_others "zoom") by history_param.
  rewrite (set_keeps_others "lon") by history_param.
  by rewrite (set_keeps_others "lat") by history_param.
Qed.

Lemma elem_of_enqueue_inv t t' (q : list timer) :
  t' ∈ enqueue t q → t' = t ∨ t' ∈ q.
Proof.
  induction q as [|t0 q IH]; cbn.
  - intros Hin%list_elem_of_singleton. by left.
  - case_decide.
    + intros [->|Hin]%elem_of_cons; [right; by left|].
      destruct (IH Hin) as [->|Hq]; [by left|right; by right].
    + intros [->|Hin]%elem_of_cons; [by left|by right].
Qed.

Lemma clearTimeout_pending (handle : jsval) w t :
  t ∈ timers (clearTimeout handle w) → t ∈ timers w.
Proof.
  destruct handle; cbn; try done.
  intros Hin%list_elem_of_filter. tauto.
Qed.

Lemma change_history_framed u es i ws w w1 :
  same_page w w1 → framed u es i ws w → framed u es i ws (_change_history w1).2.
Proof.
  intros (Hloc & Hentries & Hindex & _ & Htimers & _ & Hwrites).
  intros (Hlen & Hi & Hother & Hframe & Hpending & Hnew).
  rewrite change_history_eq. unfold framed.
  cbn [snd entries index location timers writes].
  rewrite Hentries, Hindex, Hloc, Hwrites.
  repeat (split; [done|]). split; [|done].
  intros t [->|Hin]%elem_of_enqueue_inv.
  - cbn. eapply same_frame_trans; [exact Hframe|].
    rewrite <- Hloc. apply same_frame_history_url.
  - apply Hpending. rewrite <- Htimers. by eapply clearTimeout_pending.
Qed.

Lemma run_handlers_framed u es i ws (due : list timer) w :
  (∀ t, t ∈ due → same_frame u (entry_url (written_by (timer_handler t)))) →
  framed u es i ws w →
  framed u es i ws (foldl (λ w t, run_handler (timer_handler t) w) w due).
Proof.
  revert w. induction due as [|t due IH]; intros w Hdue Hw; [done|].
  cbn [foldl]. apply IH; [intros t' Ht'; apply Hdue; by right|].
  assert (same_frame u (entry_url (written_by (timer_handler t)))) as Ht
    by (apply Hdue; by left).
  destruct Hw as (Hlen & Hi & Hother & Hframe & Hpending & new & Hwrites & Hnew).
  destruct (timer_handler t) as [url]. cbn in Ht. unfold framed. cbn.
  split; [by rewrite length_insert|]. split; [done|].
  split; [intros j Hj; rewrite list_lookup_insert_ne by congruence; by apply Hother|].
  split; [done|]. split; [done|].
  exists (new ++ [mkEntry "WMS UI" url])%list.
  split; [by rewrite Hwrites, app_assoc|].
  apply Forall_app. split; [done|].
  constructor; [by split|constructor].
Qed.

Lemma same_page_framed u es i ws w w1 :
  same_page w w1 → framed u es i ws w → framed u es i ws w1.
Proof.
  intros (Hloc & Hentries & Hindex & _ & Htimers & _ & Hwrites).
  unfold framed. by rewrite Hloc, Hentries, Hindex, Htimers, Hwrites.
Qed.

Lemma perform_framed u es i ws a w :
  framed u es i ws w → framed u es i ws (perform a w).
Proof.
  intros Hw. unfold perform.
  destruct (method_cases a w)
    as [[d ->]|(w1 & Hsame & _ & _ & [->|[[_ ->]|[_ ->]]])]; cbn [snd].
  - cbn [method modify snd]. unfold elapse.
    destruct Hw as (Hlen & Hi & Hother & Hframe & Hpending & Hnew).
    apply run_handlers_framed.
    + intros t Hin%list_elem_of_filter. apply Hpending. tauto.
    + unfold framed. cbn. repeat (split; [done|]). split; [|done].
      intros t Hin%list_elem_of_filter. apply Hpending. tauto.
  - by eapply same_page_framed.
  - by eapply change_history_framed.
  - by eapply same_page_framed.
Qed.

Lemma run_framed u es i ws (trace : list action) w :
  framed u es i ws w → framed u es i ws (run trace w).
Proof.
  revert w. induction trace as [|a trace IH]; intros w Hw; [done|].
  change (run (a :: trace) w) with (run trace (perform a w)).
  by apply IH, perform_framed.
Qed.

End Frame.

(** X9.  Whatever is called, with whatever arguments and however spaced,
    on a page that starts with no timer pending: the session history never
    gains or loses an entry and the position in it never moves; no entry
    but the current one is touched; the location keeps its path and its
    fragment and, in their order, the values of every query parameter other
    than [lat], [lon], [zoom], [base]; and every history write is a
    [replaceState] of such a URL under the title ["WMS UI"]. *)
Theorem page_frame_is_kept (trace : list action) (w : world) :
  timers w = [] →
  let w' := run trace w in
  length (entries w') = length (entries w)
  ∧ index w' = index w
  ∧ (∀ j, j ≠ index w → entries w' !! j = entries w !! j)
  ∧ same_frame (location w) (location w')
  ∧ ∃ new, writes w' = (writes w ++ new)%list
           ∧ Forall (written_on (location w)) new.
Proof.
  intros Htimers w'.
  assert (framed (location w) (entries w) (index w) (writes w) w) as Hw.
  { unfold framed. split; [done|]. split; [done|]. split; [done|].
    split; [apply same_frame_refl|]. split.
    - intros t Ht. rewrite Htimers in Ht. by apply elem_of_nil in Ht.
    - exists []. by rewrite app_nil_r. }
  destruct (run_framed _ _ _ _ trace w Hw)
    as (Hlen & Hi & Hother & Hframe & _ & Hnew).
  by repeat (split; [done|]).
Qed.

(** A page at [?tool=ruler#map]: after a trace that overwrites [timeout]
    and so makes two writes, the location still has [tool=ruler] first. *)
Lemma page_frame_is_kept_example :
  let u := mkURL "https://maps.example/wms" [("tool", "ruler")] "map" in
  let w := (constructor Example.osm Example.zero Example.zero Example.one
              (mkWorld ∅ u [mkEntry "" u] 0 0 [] 1 ∅ [])).2 in
  let trace := [ChangeParam "zoom" (Num (Number "7")) true; Elapse 100;
                ChangeParam "timeout" Null true; Elapse 300] in
  length (writes (run trace w)) = 2
  ∧ length (entries (run trace w)) = 1
  ∧ same_frame u (location (run trace w)).
Proof.
  intros u w trace.
  destruct (page_frame_is_kept trace w eq_refl) as (Hlen & _ & _ & Hframe & _).
  split; [reflexivity|]. split; [exact Hlen|exact Hframe].
Defined.

(** ** [randomChoice] on any array *)

Section Choice.

Open Scope Z_scope.

(** Rounding [n * r] loses less than [n] times the gap below 1, for every
    integer [n >= 1]: the unit in the last place of the product is at most
    that of [n] itself. *)
Lemma product_rounding_step (n x : Z) :
  0 < n → 0 ≤ x → x < n * Binary64.one →
  2 ^ Binary64.dropped_bits x < 2 * (n * Binary64.gap).
Proof.
  intros Hn Hx Hlt.
  assert (0 < Binary64.gap) as Hgap by (by apply Z.pow_pos_nonneg).
  assert (0 < n * Binary64.gap) as Hngap by (by apply Z.mul_pos_pos).
  unfold Binary64.dropped_bits.
  destruct (Z.max_spec 0 (Z.log2 x - 52)) as [[Hbig ->]|[Hsmall ->]];
    [|change (2 ^ 0) with 1; lia].
  assert (0 < x) as Hpos.
  { destruct (decide (x = 0)) as [->|]; [|lia]. cbn in Hbig. lia. }
  pose proof (Z.log2_nonneg n) as He.
  destruct (Z.log2_spec n Hn) as [Hlow Hhigh].
  set (e := Z.log2 n) in *. set (m := 2 ^ e) in *.
  rewrite Z.pow_succ_r in Hhigh by done. fold m in Hhigh.
  assert (0 < m) as Hm by (by apply Z.pow_pos_nonneg).
  destruct (decide (n = m)) as [Heq|Hneq].
  - (* a power of two: the product is below [2^(e + 1074)] *)
    assert (Z.log2 x < e + 1074) as Hlog.
    { apply Z.log2_lt_pow2; [done|]. rewrite Z.pow_add_r by lia.
      fold m. unfold Binary64.one in Hlt. by rewrite <- Heq. }
    assert (2 ^ (Z.log2 x - 52) ≤ 2 ^ (e + 1021)) as Hpow
      by (apply Z.pow_le_mono_r; lia).
    rewrite Z.pow_add_r in Hpow by lia. fold m in Hpow.
    fold Binary64.gap in Hpow. rewrite <- Heq in Hpow. lia.
  - (* otherwise it is below [2^(e + 1075)], and [2^e < n] *)
    assert (Z.log2 x < e + 1075) as Hlog.
    { apply Z.log2_lt_pow2; [done|].
      replace (e + 1075) with (Z.succ e + 1074) by lia.
      rewrite Z.pow_add_r, Z.pow_succ_r by lia. fold m.
      unfold Binary64.one in Hlt.
      assert (n * 2 ^ 1074 < 2 * m * 2 ^ 1074); [|lia].
      apply Z.mul_lt_mono_pos_r; [by apply Z.pow_pos_nonneg|lia]. }
    assert (2 ^ (Z.log2 x - 52) ≤ 2 ^ (e + 1 + 1021)) as Hpow
      by (apply Z.pow_le_mono_r; lia).
    rewrite !Z.pow_add_r in Hpow by lia. fold m in Hpow.
    fold Binary64.gap in Hpow. change (2 ^ 1) with 2 in Hpow.
    assert (m * Binary64.gap < n * Binary64.gap)
      by (apply Z.mul_lt_mono_pos_r; lia).
    lia.
Qed.

(** The index stays inside an array of any length [n >= 1]. *)
Lemma choice_index_in_range (n r : Z) :
  0 < n → Binary64.representable r = true → r < Binary64.one →
  0 ≤ Binary64.floor (Binary64.mul n r) < n.
Proof.
  intros Hn Hrep Hlt. pose proof (below_one r Hrep Hlt) as Hr.
  apply andb_prop in Hrep as [[Hnonneg%Z.leb_le _]%andb_prop _].
  assert (0 < Binary64.gap) as Hgap by (by apply Z.pow_pos_nonneg).
  assert (0 < Binary64.one) as Hone by (by apply Z.pow_pos_nonneg).
  assert (0 ≤ n * r) as Hx by (apply Z.mul_nonneg_nonneg; lia).
  assert (n * r ≤ n * (Binary64.one - Binary64.gap)) as Hmax
    by (apply Z.mul_le_mono_nonneg_l; lia).
  rewrite Z.mul_sub_distr_l in Hmax.
  assert (0 < n * Binary64.gap) as Hngap by (by apply Z.mul_pos_pos).
  unfold Binary64.mul, Binary64.floor.
  destruct (round_near (n * r) Hx) as [Hlow Hnear].
  pose proof (product_rounding_step n (n * r) Hn Hx) as Hstep.
  split; [by apply Z.div_pos|].
  apply Z.div_lt_upper_bound; [done|].
  rewrite (Z.mul_comm Binary64.one n). lia.
Qed.

End Choice.

(** X10.  [randomChoice] never reads outside its array: for every double
    [random] with [0 <= random < 1] and every array that is not empty, the
    index [Math.floor(arr.length * random)] is below [arr.length] (the
    product never rounds up to the length) and the result is an element of
    the array; on the empty array the result is [undefined]. *)
Theorem randomChoice_in_array (arr : list string) (random : Z) :
  Binary64.representable random = true → (random < Binary64.one)%Z →
  (arr = [] → randomChoice arr random = None)
  ∧ (arr ≠ [] →
     let i := Binary64.floor (Binary64.mul (Z.of_nat (length arr)) random) in
     (0 ≤ i < Z.of_nat (length arr))%Z
     ∧ ∃ x, randomChoice arr random = Some x ∧ x ∈ arr).
Proof.
  intros Hrep Hlt. split; [by intros ->|].
  intros Hne i.
  assert (0 < Z.of_nat (length arr))%Z as Hn
    by (destruct arr; [done|cbn; lia]).
  pose proof (choice_index_in_range _ random Hn Hrep Hlt) as Hi. fold i in Hi.
  split; [exact Hi|].
  destruct (lookup_lt_is_Some_2 arr (Z.to_nat i)) as [x Hx]; [lia|].
  exists x. split; [exact Hx|]. by eapply list_elem_of_lookup_2.
Qed.

(** The largest double below 1, on an array of three and on one of four
    (a power of two): the last element each time. *)
Lemma randomChoice_in_array_example :
  let largest := (2 ^ 1074 - 2 ^ 1021)%Z in
  randomChoice ["a"; "b"; "c"] largest = Some "c"
  ∧ randomChoice ["a"; "b"; "c"; "d"] largest = Some "d"
  ∧ ∃ x, randomChoice ["a"; "b"; "c"] largest = Some x ∧ x ∈ ["a"; "b"; "c"].
Proof.
  intros largest. split; [by vm_compute|]. split; [by vm_compute|].
  refine (proj2 (proj2 (randomChoice_in_array ["a"; "b"; "c"] largest
                          _ _) _)); by vm_compute.
Defined.
